(** * highest_win_rate: selecting the adversarial policies with maximal win rate

    A shallow embedding of [experiments/modelfree/highest_win_rate.py].

    - Paths are Python [str] values on a POSIX system ([os.path.sep = "/"]);
      [str.split], [os.path.join] and the [in] substring test are written out.
    - Win rates are IEEE 754 binary64 numbers (Rocq's primitive [float]), so
      that the comparison [our_winrate > best_winrate[key]] has the NaN
      behaviour of the Python program.
    - Python exceptions are values of [exn]; a computation that may raise
      returns [result A = exn + A].
    - [best_policy] and [best_winrate] are finite maps ([gmap]); the nested
      dictionaries built by [unstack] are insertion-ordered association
      lists.
    - The file system, the TensorFlow event reader and the JSON
      configuration files are the fields of a [World]. *)

From Stdlib Require Import ZArith List Ascii String Floats Permutation.
From stdpp Require Import gmap strings pretty sorting.
Import ListNotations.

Local Open Scope string_scope.
Local Open Scope list_scope.

(** ** Exceptions and the error monad *)

Module Py.

(** The exception classes the script can raise.  [KeyError] carries the
    missing key.  In the builtin hierarchy [LookupError] has the subclasses
    [IndexError] and [KeyError]; [ValueError] is a direct subclass of
    [Exception] (and the base of [json.JSONDecodeError]); [TypeError] and
    [OSError] are direct subclasses of [Exception] as well. *)
Inductive exn : Type :=
| ValueError
| JSONDecodeError
| KeyError (key : string)
| IndexError
| TypeError
| OSError.

Definition is_LookupError (e : exn) : bool :=
  match e with
  | KeyError _ | IndexError => true
  | _ => false
  end.

Definition is_ValueError (e : exn) : bool :=
  match e with
  | ValueError | JSONDecodeError => true
  | _ => false
  end.

Definition result (A : Type) : Type := exn + A.

Definition ok {A} (a : A) : result A := inr a.
Definition raise {A} (e : exn) : result A := inl e.

Definition bind {A B} (m : result A) (k : A -> result B) : result B :=
  match m with
  | inl e => inl e
  | inr a => k a
  end.

End Py.

Import Py.
#[global] Instance result_ret : MRet result := @ok.
#[global] Instance result_bind : MBind result := fun A B k m => bind m k.

(** ** Strings and paths *)

Definition sep : ascii := "/"%char.

(** [s.split(os.path.sep)]: the pieces between separators; never empty. *)
Fixpoint split (s : string) : list string :=
  match s with
  | EmptyString => [""]
  | String c s' =>
      if Ascii.eqb c sep then "" :: split s'
      else match split s' with
           | [] => [String c ""]
           | w :: ws => String c w :: ws
           end
  end.

(** [needle in s] on strings. *)
Fixpoint contains (needle s : string) : bool :=
  String.prefix needle s ||
  match s with
  | EmptyString => false
  | String _ s' => contains needle s'
  end.

Definition startswith_sep (s : string) : bool :=
  match s with
  | String c _ => Ascii.eqb c sep
  | EmptyString => false
  end.

Fixpoint endswith_sep (s : string) : bool :=
  match s with
  | EmptyString => false
  | String c EmptyString => Ascii.eqb c sep
  | String _ s' => endswith_sep s'
  end.

(** One step of [posixpath.join]: an absolute component restarts the path,
    otherwise it is appended, with a separator unless the path so far is
    empty or already ends with one. *)
Definition join2 (path b : string) : string :=
  if startswith_sep b then b
  else if String.eqb path "" || endswith_sep path then path ++ b
  else path ++ "/" ++ b.

(** [os.path.join] applied to a first component and further ones. *)
Definition os_path_join (a : string) (p : list string) : string :=
  fold_left join2 p a.

(** [os.path.join] applied to an unpacked list: the first argument is
    required, so an empty list is a [TypeError]. *)
Definition os_path_join_star (components : list string) : result string :=
  match components with
  | [] => raise TypeError
  | a :: p => ok (os_path_join a p)
  end.

(** [os.path.sep.join(components)]. *)
Definition sep_join (components : list string) : string :=
  String.concat "/" components.

(** [l.index(x)]: position of the first occurrence. *)
Fixpoint list_index (x : string) (l : list string) : option nat :=
  match l with
  | [] => None
  | y :: l' => if String.eqb y x then Some 0%nat
               else option_map S (list_index x l')
  end.

(** [l[-2:]]. *)
Definition last2 (l : list string) : list string :=
  skipn (length l - 2) l.

(** [v[start:]] for an integer [start] of either sign. *)
Definition slice_from {A} (start : Z) (v : list A) : list A :=
  let n := Z.of_nat (length v) in
  let s := if (start <? 0)%Z then Z.max 0 (start + n) else Z.min start n in
  skipn (Z.to_nat s) v.

(** ** Path resolution *)

Definition _strip_up_to (path dirname : string) : result string :=
  let path_components :=
    match split path with
    | "" :: rest => "/" :: rest
    | cs => cs
    end in
  match list_index dirname (rev path_components) with
  | None => raise ValueError
  | Some i =>
      let path_index := (length path_components - 1 - i)%nat in
      os_path_join_star (firstn path_index path_components)
  end.

Definition get_final_model_path (event_path : string) : result string :=
  root ← _strip_up_to event_path "rl";
  let abs_path := os_path_join root ["final_model"] in
  let components := split abs_path in
  let components :=
    match list_index "multi_train" components with
    | Some multi_train_start => skipn multi_train_start components
    | None => components
    end in
  ok (sep_join components).

(** ** Directory walk *)

(** A directory as [os.walk] sees it: its sub-directories, by name, and the
    names of its files, both in the order [scandir] lists them.  A symbolic
    link to a directory is one of the sub-directories ([followlinks=True]). *)
#[warnings="-register-all"]
Inductive tree : Type :=
| Dir (dirs : list (string * tree)) (files : list string).

Definition keep_dir (d : string * tree) : bool :=
  negb (String.eqb (fst d) "checkpoint").

(** [event_files]: the top-down walk.  At every directory [root] the list
    [dirs] is first cut down to the names other than [checkpoint], the files
    of [root] are yielded when [root] qualifies, and the walk then descends
    into the directories that were kept, at [os.path.join(root, name)]. *)
Fixpoint event_files (path : string) (t : tree) : list string :=
  match t with
  | Dir dirs files =>
      (if decide (last2 (split path) = ["rl"; "tb"])
       then map (join2 path) (filter (fun name => contains "tfevents" name = true) files)
       else [])
      ++ flat_map (fun d => if keep_dir d
                            then event_files (join2 path (fst d)) (snd d)
                            else [])
                  dirs
  end.

(** ** Event logs *)

(** One [summary.value] entry and one event of the log. *)
Record Value : Type := { tag : string; simple_value : float }.
Record Event : Type := { step : Z; summary_value : list Value }.

(** NumPy, as far as the script uses it: [np.mean] of a list of floats, which
    is NaN (with a warning, not an exception) on the empty list. *)
Class Numpy : Type := {
  np_mean : list float -> float;
  np_mean_empty : PrimFloat.is_nan (np_mean []) = true
}.

Definition tracked (t : string) : bool :=
  bool_decide (t ∈ ["game_win0"; "game_win1"; "game_tie"]).

(** [events[tag].append(x)] on a [defaultdict(list)]. *)
Definition append_to (events : gmap string (list float)) (t : string) (x : float)
  : gmap string (list float) :=
  <[t := default [] (events !! t) ++ [x]]> events.

(** [d[k]] read on a [defaultdict]: a missing key is first inserted with the
    default value. *)
Definition touch {K} `{Countable K} {V} (dflt : V) (k : K) (d : gmap K V)
  : gmap K V :=
  match d !! k with
  | Some _ => d
  | None => <[k := dflt]> d
  end.

(** The loop of [get_stats] over the values of one event, on the pair
    [(events, last_step)]. *)
Definition read_event (acc : gmap string (list float) * Z) (event : Event)
  : gmap string (list float) * Z :=
  fold_left
    (fun acc value =>
       if tracked (tag value)
       then (append_to (fst acc) (tag value) (simple_value value), step event)
       else acc)
    (summary_value event) acc.

Definition read_events (log : list Event) : gmap string (list float) * Z :=
  fold_left read_event log (∅, 0%Z).

(** ** Run configuration *)

(** The keys of [config.json] the script reads, with the types the
    configuration gives them, on which the conversions [str] and [int] of
    lines 91 to 101 change nothing; [load_policy] is the nested object, when
    the file has one. *)
Record LoadPolicy : Type := { lp_type : string; lp_path : string }.

Record RunConfig : Type := {
  env_name : string;
  victim_index : Z;
  victim_type : string;
  victim_path : string;
  load_policy : option LoadPolicy
}.

(** ** The world outside the script *)

Record World : Type := {
  (** the directory found at a log directory *)
  walk_root : string -> tree;
  (** [tf.train.summary_iterator(path)] *)
  summary_iterator : string -> list Event;
  (** [open(path)] followed by [json.load] *)
  load_json : string -> result RunConfig;
  (** whether [open(path, 'w')] succeeds *)
  writable : string -> bool
}.

(** ** Reshaping *)

Definition Key : Type := string * Z * string.

(** An insertion-ordered dictionary. *)
Definition odict (K V : Type) : Type := list (K * V).

Fixpoint od_lookup {K V} `{EqDecision K} (k : K) (d : odict K V) : option V :=
  match d with
  | [] => None
  | (k', v) :: d' => if decide (k' = k) then Some v else od_lookup k d'
  end.

(** [f] applied to [d.setdefault(k, dflt)], in place: a new key goes to the
    end. *)
Fixpoint od_upsert {K V} `{EqDecision K} (k : K) (dflt : V) (f : V -> V)
    (d : odict K V) : odict K V :=
  match d with
  | [] => [(k, f dflt)]
  | (k', v) :: d' =>
      if decide (k' = k) then (k', f v) :: d'
      else (k', v) :: od_upsert k dflt f d'
  end.

(** [d[k] = v]. *)
Definition od_set {K V} `{EqDecision K} (k : K) (v : V) (d : odict K V)
  : odict K V :=
  od_upsert k v (fun _ => v) d.

Definition Nested (V : Type) : Type :=
  odict string (odict Z (odict string V)).

(** The order of Python tuples [(str, int, str)]: lexicographic, strings by
    code point. *)
Definition key_compare (a b : Key) : comparison :=
  match String.compare a.1.1 b.1.1 with
  | Eq => match Z.compare a.1.2 b.1.2 with
          | Eq => String.compare a.2 b.2
          | c => c
          end
  | c => c
  end.

Definition item_le {V} (a b : Key * V) : Prop :=
  key_compare a.1 b.1 ≠ Gt.

#[global] Instance item_le_dec {V} (a b : Key * V) : Decision (item_le a b).
Proof. unfold item_le. apply _. Defined.

(** [sorted(d.items())]: the keys of a dictionary are distinct, so the values
    never take part in a comparison. *)
Definition sorted_items {V} (d : gmap Key V) : list (Key * V) :=
  merge_sort item_le (map_to_list d).

Definition unstack_item {V} (res : Nested V) (kv : Key * V) : Nested V :=
  let '((env_name, opp_index, opp_path), v) := kv in
  od_upsert env_name [] (od_upsert opp_index [] (od_set opp_path v)) res.

Definition unstack {V} (d : gmap Key V) : Nested V :=
  fold_left unstack_item (sorted_items d) [].

(** The leaf of a nested dictionary at a key, if it has one. *)
Definition leaf {V} (doc : Nested V) (k : Key) : option V :=
  match od_lookup k.1.1 doc with
  | Some by_index =>
      match od_lookup k.1.2 by_index with
      | Some by_path => od_lookup k.2 by_path
      | None => None
      end
  | None => None
  end.

Record ResultDocument : Type := {
  policies : Nested string;
  winrates : Nested float
}.

(** ** Command line *)

Record Args : Type := {
  logdir : list string;
  episode_window : Z;
  output_path : option string
}.

(** What [main] does to the outside, in order. *)
Inductive Action : Type :=
| Warn (dir : string)
| OpenW (path : string)
| Scan (dirs : list string)
| Dump (path : string) (doc : ResultDocument).

Section Script.

Context `{Numpy}.
Variable w : World.

(** The dictionary of means; the logging line reads [events['game_win0']]
    before the means are taken. *)
Definition get_stats (event_path : string) (episode_window : Z)
  : gmap string float :=
  let '(events, last_step) := read_events (summary_iterator w event_path) in
  let events := touch [] "game_win0" events in
  (fun v => np_mean (slice_from (- episode_window) v)) <$> events.

Definition get_sacred_config (event_path : string) : result RunConfig :=
  root ← _strip_up_to event_path "baselines";
  let sacred_config_path :=
    os_path_join root ["sacred"; "train"; "1"; "config.json"] in
  load_json w sacred_config_path.

(** ** Aggregation *)

Record Best : Type := {
  best_policy : gmap Key string;
  best_winrate : gmap Key float
}.

Definition empty_best : Best :=
  {| best_policy := ∅; best_winrate := ∅ |}.

(** The opponent identity of a run (lines 95 to 101): [load_policy] is only
    read when the victim is not a zoo policy. *)
Definition resolve_zoo_path (config : RunConfig) : result string :=
  if negb (String.eqb (victim_type config) "zoo") then
    match load_policy config with
    | None => raise (KeyError "load_policy")
    | Some lp =>
        if String.eqb (lp_type lp) "zoo" then ok (lp_path lp)
        else ok (victim_path config)
    end
  else ok (victim_path config).

(** The conditional update of lines 106 to 108.  Reading
    [best_winrate[key]] inserts [0.0] for a key not seen before; the model
    path is only computed when the record is replaced. *)
Definition update (event_path : string) (key : Key) (our_winrate : float)
    (st : Best) : result Best :=
  let stored := default 0%float (best_winrate st !! key) in
  let winrates := touch 0%float key (best_winrate st) in
  if (stored <? our_winrate)%float then
    model ← get_final_model_path event_path;
    ok {| best_policy := <[key := model]> (best_policy st);
          best_winrate := <[key := our_winrate]> winrates |}
  else
    ok {| best_policy := best_policy st; best_winrate := winrates |}.

(** What one event log contributes: its key and our win rate. *)
Definition observe (episode_window : Z) (event_path : string)
  : result (Key * float) :=
  let stats := get_stats event_path episode_window in
  config ← get_sacred_config event_path;
  let opp_index := victim_index config in
  zoo_path ← resolve_zoo_path config;
  let our_index := (1 - opp_index)%Z in
  let key := (env_name config, opp_index, zoo_path) in
  match stats !! ("game_win" +:+ pretty our_index) with
  | None => raise (KeyError ("game_win" +:+ pretty our_index))
  | Some our_winrate => ok (key, our_winrate)
  end.

(** The body of the inner loop of [find_best]. *)
Definition fold_log (episode_window : Z) (st : Best) (event_path : string)
  : result Best :=
  kw ← observe episode_window event_path;
  update event_path (fst kw) (snd kw) st.

(** A loop whose body may raise. *)
Fixpoint fold_result {A S} (f : S -> A -> result S) (l : list A) (s : S)
  : result S :=
  match l with
  | [] => ok s
  | a :: l' => s' ← f s a; fold_result f l' s'
  end.

(** The event logs of all log directories, in discovery order. *)
Definition discover (logdirs : list string) : list string :=
  flat_map (fun logdir => event_files logdir (walk_root w logdir)) logdirs.

Definition fold_logs (episode_window : Z) (paths : list string) (st : Best)
  : result Best :=
  fold_result (fold_log episode_window) paths st.

Definition find_best (logdirs : list string) (episode_window : Z)
  : result ResultDocument :=
  st ← fold_logs episode_window (discover logdirs) empty_best;
  ok {| policies := unstack (best_policy st);
        winrates := unstack (best_winrate st) |}.

(** ** Driver *)

(** Lines 135 to 140. *)
Definition choose_output (args : Args) : result string :=
  match output_path args with
  | Some p => ok p
  | None =>
      if (1 <? length (logdir args))%nat then raise ValueError
      else match logdir args with
           | [] => raise IndexError
           | d :: _ => ok (os_path_join d ["highest_win_policies_and_rates.json"])
           end
  end.

Definition portable (dir : string) : bool :=
  bool_decide ("multi_train" ∈ split dir).

Definition warnings (args : Args) : list Action :=
  map Warn (filter (fun dir => portable dir = false) (logdir args)).

(** [main] on parsed arguments: the actions it took, and how it ended. *)
Definition main (args : Args) : list Action * result unit :=
  match choose_output args with
  | inl e => ([], inl e)
  | inr out =>
      if writable w out then
        match find_best (logdir args) (episode_window args) with
        | inl e => (warnings args ++ [OpenW out; Scan (logdir args)], inl e)
        | inr doc =>
            (warnings args ++ [OpenW out; Scan (logdir args); Dump out doc],
             ok ())
        end
      else (warnings args, raise OSError)
  end.

End Script.

(** A NumPy that sums from left to right. *)
Definition mean_seq (v : list float) : float :=
  (fold_left PrimFloat.add v 0 / PrimFloat.of_uint63 (Uint63.of_Z (Z.of_nat (length v))))%float.

#[global] Instance seq_numpy : Numpy :=
  {| np_mean := mean_seq; np_mean_empty := eq_refl |}.

(** ** Notions the statements use *)

(** The values a log records for a tag, in emission order. *)
Definition recorded (log : list Event) (t : string) : list float :=
  flat_map
    (fun event =>
       map simple_value
           (filter (fun value => tag value = t) (summary_value event)))
    log.

(** The last [n] elements of a list, in order. *)
Definition lastn {A} (n : nat) (l : list A) : list A :=
  rev (firstn n (rev l)).

(** [at_dir t ds t']: following the directory names [ds] down from [t]
    leads to [t']. *)
Inductive at_dir : tree -> list string -> tree -> Prop :=
| at_here t : at_dir t [] t
| at_sub dirs files name sub ds t' :
    (name, sub) ∈ dirs -> at_dir sub ds t' ->
    at_dir (Dir dirs files) (name :: ds) t'.

(** The file [name] lies in the directory reached by [ds]. *)
Definition has_file (t : tree) (ds : list string) (name : string) : Prop :=
  exists dirs files, at_dir t ds (Dir dirs files) /\ name ∈ files.

(** A tree without its [checkpoint] directories, at any depth. *)
Fixpoint prune (t : tree) : tree :=
  match t with
  | Dir dirs files =>
      Dir (flat_map (fun d => if keep_dir d then [(fst d, prune (snd d))]
                              else [])
                    dirs)
          files
  end.

(** The entry of [t] in [events] once the values [l] have been appended to
    it. *)
Definition appended (events : gmap string (list float)) (t : string)
    (l : list float) : option (list float) :=
  match l with
  | [] => events !! t
  | _ => Some (default [] (events !! t) ++ l)
  end.

(** The win rate that [best_winrate[key]] reads. *)
Definition stored_rate (st : Best) (key : Key) : float :=
  default 0%float (best_winrate st !! key).

(** The state after the update of a key with a win rate, for a log whose
    model path is [model]. *)
Definition updated (st : Best) (key : Key) (r : float) (model : string) : Best :=
  if (stored_rate st key <? r)%float
  then {| best_policy := <[key := model]> (best_policy st);
          best_winrate := <[key := r]> (touch 0%float key (best_winrate st)) |}
  else {| best_policy := best_policy st;
          best_winrate := touch 0%float key (best_winrate st) |}.

(** The files a directory itself contributes to [event_files]. *)
Definition here (path : string) (files : list string) : list string :=
  if decide (last2 (split path) = ["rl"; "tb"])
  then map (join2 path) (filter (fun name => contains "tfevents" name = true) files)
  else [].

(** Every key with a policy has a win rate. *)
Definition policies_have_rates (st : Best) : Prop :=
  forall k, is_Some (best_policy st !! k) -> is_Some (best_winrate st !! k).

(** ** Notions the further statements use *)

(** No separator in a string. *)
Fixpoint sep_free (s : string) : bool :=
  match s with
  | EmptyString => true
  | String c s' => negb (Ascii.eqb c sep) && sep_free s'
  end.

(** A name a directory entry can have: not empty, no separator. *)
Definition plain (s : string) : bool :=
  negb (String.eqb s "") && sep_free s.

(** The components of a path to a directory: plain names, after an empty
    first component when the path is absolute. *)
Definition rooted (pre : list string) : Prop :=
  match pre with
  | [] => False
  | h :: t => (h = "" \/ plain h = true) /\ Forall (fun s => plain s = true) t
  end.

(** Every directory and file name of a tree is plain. *)
Fixpoint plain_tree (t : tree) : Prop :=
  match t with
  | Dir dirs files =>
      Forall (fun name => plain name = true) files /\
      (fix all (ds : list (string * tree)) : Prop :=
         match ds with
         | [] => True
         | d :: ds' => plain d.1 = true /\ plain_tree d.2 /\ all ds'
         end) dirs
  end.

(** Every record is sound: a key with a policy has a win rate above zero, a
    key without one has at most the zero it was read with. *)
Definition sound (st : Best) : Prop :=
  forall k,
    match best_policy st !! k with
    | Some _ => exists v, best_winrate st !! k = Some v /\ (0 <? v)%float = true
    | None => forall v, best_winrate st !! k = Some v -> v = 0%float
    end.

(** The policies of [st] are the model paths of logs among [seen] that have
    the stored win rate. *)
Definition attained `{Numpy} (w : World) (W : Z) (seen : list string)
    (st : Best) : Prop :=
  forall k m,
    best_policy st !! k = Some m ->
    exists p r,
      p ∈ seen /\ observe w W p = ok (k, r) /\
      get_final_model_path p = ok m /\ best_winrate st !! k = Some r.

(** The keys of [best_winrate] are the keys of the logs among [seen]. *)
Definition keyed `{Numpy} (w : World) (W : Z) (seen : list string)
    (st : Best) : Prop :=
  forall k,
    is_Some (best_winrate st !! k) <->
    exists p r, p ∈ seen /\ observe w W p = ok (k, r).

(** The leaves of a nested dictionary with their keys, in the order in which
    the dictionary lists them. *)
Definition flatten {V} (doc : Nested V) : list (Key * V) :=
  flat_map
    (fun ei =>
       flat_map
         (fun ip => map (fun pv => ((ei.1, ip.1, pv.1), pv.2)) ip.2)
         ei.2)
    doc.

(** The strict and the large order of a three-way comparison. *)
Definition klt {K} (cmp : K -> K -> comparison) (a b : K) : Prop :=
  cmp a b = Lt.
Definition kle {K} (cmp : K -> K -> comparison) (a b : K) : Prop :=
  cmp a b ≠ Gt.

(** Keys in strictly increasing order, none above [k]. *)
Definition increasing {K A} (cmp : K -> K -> comparison) (d : odict K A)
  : Prop :=
  StronglySorted (klt cmp) d.*1.
Definition below {K A} (cmp : K -> K -> comparison) (d : odict K A) (k : K)
  : Prop :=
  Forall (fun k' => kle cmp k' k) d.*1.

Definition key_lt (a b : Key) : Prop := key_compare a b = Lt.

(** The environments, and under each environment the slot indices, are in
    strictly increasing order. *)
Definition sorted_doc {V} (doc : Nested V) : Prop :=
  increasing String.compare doc /\
  forall e by_i, (e, by_i) ∈ doc -> increasing Z.compare by_i.

(** Every key the dictionary holds is below [k]. *)
Definition dominated {V} (doc : Nested V) (k : Key) : Prop :=
  forall e by_i,
    (e, by_i) ∈ doc ->
    kle String.compare e k.1.1 /\
    (e = k.1.1 ->
     forall i by_p,
       (i, by_p) ∈ by_i ->
       kle Z.compare i k.1.2 /\
       (i = k.1.2 ->
        forall p v, (p, v) ∈ by_p -> klt String.compare p k.2)).

(** ** A small corpus *)

Module Corpus.

(** One training run: [baselines/t/rl/tb] holds the event log, next to a
    checkpoint directory, and [sacred] holds the configuration. *)
Definition run (name : string) : string * tree :=
  (name,
   Dir [("baselines",
         Dir [("t",
               Dir [("rl",
                     Dir [("tb",
                           Dir [("checkpoint", Dir [] ["old.tfevents"])]
                               ["events.tfevents." +:+ name; "notes.txt"])]
                         [])]
                   [])]
             []);
        ("sacred", Dir [] [])]
       []).

Definition log_of (name : string) : string :=
  "/d/multi_train/" +:+ name +:+ "/baselines/t/rl/tb/events.tfevents." +:+ name.

(** The events of [won + lost] episodes, of which the adversary, in slot
    1, wins the first [won]; every episode reports the three metrics. *)
Definition episode (n : nat) (adversary_wins : bool) : Event :=
  {| step := Z.of_nat n;
     summary_value :=
       [{| tag := "game_win0";
           simple_value := if adversary_wins then 0%float else 1%float |};
        {| tag := "game_win1";
           simple_value := if adversary_wins then 1%float else 0%float |};
        {| tag := "game_tie"; simple_value := 0%float |}] |}.

Definition games (won lost : nat) : list Event :=
  imap episode (repeat true won ++ repeat false lost).

(** The adversary plays slot 1 against zoo policy 3 in slot 0. *)
Definition config : RunConfig :=
  {| env_name := "Env1"; victim_index := 0; victim_type := "zoo";
     victim_path := "zoo/3"; load_policy := None |}.

(** The same match with the slots exchanged. *)
Definition config_slot1 : RunConfig :=
  {| env_name := "Env1"; victim_index := 1; victim_type := "zoo";
     victim_path := "zoo/3"; load_policy := None |}.

(** A fine-tuning run: the victim is not a zoo policy, the loaded policy
    is. *)
Definition finetune : RunConfig :=
  {| env_name := "Env1"; victim_index := 0; victim_type := "ppo2";
     victim_path := "/tmp/adversary";
     load_policy := Some {| lp_type := "zoo"; lp_path := "zoo/3" |} |}.

Definition K : Key := ("Env1", 0%Z, "zoo/3").

#[warnings="-inexact-float"]
Definition rate_A : float := 0.62.
#[warnings="-inexact-float"]
Definition rate_B : float := 0.71.

(** Over 100 episodes run [A] wins 62 and run [B] wins 71; run [L] never
    wins; the log of any other run, such as [E], has no event. *)
Definition events_of (event_path : string) : list Event :=
  if String.eqb event_path (log_of "A") then games 62 38
  else if String.eqb event_path (log_of "B") then games 71 29
  else if String.eqb event_path (log_of "L") then games 0 100
  else [].

Definition world (config : RunConfig) (runs : list string) : World :=
  {| walk_root := fun _ => Dir (map run runs) [];
     summary_iterator := events_of;
     load_json := fun _ => ok config;
     writable := fun _ => true |}.

(** An event log outside any [baselines] directory. *)
Definition stray : string := "/d/multi_train/S/rl/tb/events.tfevents.S".

Definition stray_world : World :=
  {| walk_root := fun _ =>
       Dir [("S", Dir [("rl", Dir [("tb", Dir [] ["events.tfevents.S"])] [])] [])] [];
     summary_iterator := events_of;
     load_json := fun _ => ok config;
     writable := fun _ => true |}.

(** A run against a victim that is not a zoo policy, whose configuration
    has no [load_policy] entry. *)
Definition no_descriptor : RunConfig :=
  {| env_name := "Env1"; victim_index := 0; victim_type := "ppo2";
     victim_path := "/tmp/adversary"; load_policy := None |}.

(** The values of [games 2 1] written differently: other step indices, an
    event without values, several values of one tag in one event, and values
    of a tag that is not tracked. *)
Definition regrouped : list Event :=
  [{| step := 10;
      summary_value :=
        [{| tag := "game_win0"; simple_value := 0%float |};
         {| tag := "game_win0"; simple_value := 0%float |};
         {| tag := "reward"; simple_value := 3.5%float |};
         {| tag := "game_win1"; simple_value := 1%float |}] |};
   {| step := 7; summary_value := [] |};
   {| step := 20;
      summary_value :=
        [{| tag := "game_tie"; simple_value := 0%float |};
         {| tag := "game_win1"; simple_value := 1%float |};
         {| tag := "game_win0"; simple_value := 1%float |};
         {| tag := "game_tie"; simple_value := 0%float |};
         {| tag := "reward"; simple_value := 0.25%float |};
         {| tag := "game_win1"; simple_value := 0%float |};
         {| tag := "game_tie"; simple_value := 0%float |}] |}].

(** The log [R] holds [regrouped], any other log [games 2 1]. *)
Definition regrouped_world : World :=
  {| walk_root := fun _ => Dir (map run ["A"; "R"]) [];
     summary_iterator := fun event_path =>
       if String.eqb event_path (log_of "R") then regrouped else games 2 1;
     load_json := fun _ => ok config;
     writable := fun _ => true |}.

End Corpus.

(** * Properties *)

(** ** Order of binary64 numbers *)

Ltac cmp_cases :=
  repeat match goal with
  | |- context [Z.compare ?a ?b] => destruct (Z.compare_spec a b)
  | |- context [Pos.compare_cont Eq ?a ?b] =>
      change (Pos.compare_cont Eq a b) with (Pos.compare a b);
      destruct (Pos.compare_spec a b)
  end.

Ltac sf_cases x y :=
  unfold SFltb, SFleb, SFcompare;
  destruct x as [[]|[]| |[] ? ?], y as [[]|[]| |[] ? ?];
  try discriminate; try reflexivity.

Lemma SFltb_asym x y : SFltb x y = true -> SFltb y x = false.
Proof.
  sf_cases x y; cmp_cases; simpl; try discriminate; try reflexivity; lia.
Qed.

Lemma SFltb_trans x y z :
  SFltb x y = true -> SFltb y z = true -> SFltb x z = true.
Proof.
  sf_cases x y; destruct z as [[]|[]| |[] ? ?];
    try discriminate; try reflexivity;
    cmp_cases; simpl; try discriminate; try reflexivity; lia.
Qed.

Lemma SFeqb_refl_nan x : SFeqb x x = false -> x = S754_nan.
Proof.
  unfold SFeqb, SFcompare.
  destruct x as [[]|[]| |[] m e]; try discriminate; try reflexivity;
    rewrite Z.compare_refl;
    change (Pos.compare_cont Eq m m) with (Pos.compare m m);
    rewrite Pos.compare_refl; discriminate.
Qed.

Section FloatOrder.

Local Open Scope float_scope.

Lemma ltb_asym x y : (x <? y) = true -> (y <? x) = false.
Proof. rewrite !FloatAxioms.ltb_spec. apply SFltb_asym. Qed.

Lemma ltb_irrefl x : (x <? x) = false.
Proof.
  destruct (x <? x) eqn:E; [|reflexivity].
  pose proof (ltb_asym _ _ E). congruence.
Qed.

Lemma ltb_trans x y z : (x <? y) = true -> (y <? z) = true -> (x <? z) = true.
Proof. rewrite !FloatAxioms.ltb_spec. apply SFltb_trans. Qed.

Lemma is_nan_Prim2SF x : PrimFloat.is_nan x = true -> Prim2SF x = S754_nan.
Proof.
  unfold PrimFloat.is_nan. rewrite FloatAxioms.eqb_spec. intros E. apply SFeqb_refl_nan.
  destruct (SFeqb _ _); [discriminate|reflexivity].
Qed.

(** A NaN is not greater than anything. *)
Lemma ltb_nan_r x y : PrimFloat.is_nan y = true -> (x <? y) = false.
Proof.
  intros E. rewrite FloatAxioms.ltb_spec, (is_nan_Prim2SF _ E).
  unfold SFltb, SFcompare. destruct (Prim2SF x); reflexivity.
Qed.

Lemma ltb_nan_l x y : PrimFloat.is_nan x = true -> (x <? y) = false.
Proof. intros E. rewrite FloatAxioms.ltb_spec, (is_nan_Prim2SF _ E). reflexivity. Qed.

End FloatOrder.

(** ** Lists and loops *)

Lemma list_index_None x l : list_index x l = None <-> x ∉ l.
Proof.
  induction l as [|y l IH]; simpl.
  - split; [intros _; apply not_elem_of_nil | done].
  - rewrite not_elem_of_cons.
    destruct (String.eqb_spec y x) as [->|Hne].
    + split; [done | intros [? _]; done].
    + destruct (list_index x l); simpl.
      * split; [done|]. intros [_ Hn]. by apply IH in Hn.
      * split; [|done]. intros _. split; [congruence | by apply IH].
Qed.

Lemma fold_result_app {A S} (f : S -> A -> result S) (l1 l2 : list A) s :
  fold_result f (l1 ++ l2) s = (s' ← fold_result f l1 s; fold_result f l2 s').
Proof.
  revert s. induction l1 as [|a l1 IH]; intros s; simpl; [done|].
  destruct (f s a) as [e|s1]; simpl; [done|]. apply IH.
Qed.

(** ** Configuration resolution *)

Lemma strip_missing path dirname :
  dirname ≠ "/" -> dirname ∉ split path ->
  _strip_up_to path dirname = raise ValueError.
Proof.
  intros Hsep Hnot. unfold _strip_up_to.
  set (pc := match split path with "" :: rest => "/" :: rest | cs => cs end).
  assert (Hpc : dirname ∉ pc).
  { subst pc. destruct (split path) as [|c cs]; [done|].
    destruct c as [|a c']; [|done].
    apply not_elem_of_cons in Hnot as [_ Hnot].
    by apply not_elem_of_cons. }
  assert (Hrev : list_index dirname (rev pc) = None).
  { apply list_index_None.
    by rewrite list_elem_of_In, <- in_rev, <- list_elem_of_In. }
  by rewrite Hrev.
Qed.

Section Resolution.

Context `{Numpy}.
Variable w : World.

Lemma fold_logs_abort W pre p post st st1 e :
  fold_logs w W pre st = ok st1 ->
  fold_log w W st1 p = raise e ->
  fold_logs w W (pre ++ p :: post) st = raise e.
Proof.
  intros Hpre Hp. unfold fold_logs in *.
  rewrite fold_result_app, Hpre. simpl.
  change (fold_log w W st1 p ≫= fold_result (fold_log w W) post = raise e).
  by rewrite Hp.
Qed.

(** C2, as the code has it: an event log whose path has no [baselines]
    segment makes [get_sacred_config] raise [ValueError], the exception
    [_strip_up_to] raises itself, which is not a [LookupError].  Nothing
    catches it: the loop body raises it, [find_best] raises it as soon as the
    logs discovered before have been folded, and [main] ends with it, having
    opened the output file and written nothing to it. *)
Theorem missing_anchor_aborts event_path :
  "baselines" ∉ split event_path ->
  exists e,
    is_ValueError e = true /\ is_LookupError e = false /\
    get_sacred_config w event_path = raise e /\
    (forall W st, fold_log w W st event_path = raise e) /\
    (forall W logdirs pre post st1,
        discover w logdirs = pre ++ event_path :: post ->
        fold_logs w W pre empty_best = ok st1 ->
        find_best w logdirs W = raise e /\
        forall args out,
          logdir args = logdirs -> episode_window args = W ->
          choose_output args = ok out -> writable w out = true ->
          main w args = (warnings args ++ [OpenW out; Scan logdirs], raise e)).
Proof.
  intros Hnot. exists ValueError.
  assert (Hcfg : get_sacred_config w event_path = raise ValueError).
  { unfold get_sacred_config. by rewrite strip_missing. }
  assert (Hlog : forall W st, fold_log w W st event_path = raise ValueError).
  { intros W st. unfold fold_log, observe. by rewrite Hcfg. }
  split; [done|]. split; [done|]. split; [done|]. split; [done|].
  intros W logdirs pre post st1 Hdisc Hpre.
  assert (Hfb : find_best w logdirs W = raise ValueError).
  { unfold find_best. rewrite Hdisc.
    by rewrite (fold_logs_abort _ _ _ _ _ _ _ Hpre (Hlog W st1)). }
  split; [done|]. intros args out <- <- Hout Hw. unfold main.
  rewrite Hout. simpl. by rewrite Hw, Hfb.
Qed.

End Resolution.

Lemma missing_anchor_aborts_witness :
  ("baselines" ∉ split Corpus.stray) /\
  find_best Corpus.stray_world ["/d/multi_train"] 100 = raise ValueError.
Proof.
  assert (Hnot : "baselines" ∉ split Corpus.stray).
  { rewrite list_elem_of_In. vm_compute. intuition discriminate. }
  split; [exact Hnot|].
  destruct (missing_anchor_aborts Corpus.stray_world Corpus.stray Hnot)
    as (e & Hv & _ & Hcfg & _ & Hrun).
  assert (He : e = ValueError) by (vm_compute in Hcfg; congruence).
  rewrite <- He.
  apply (Hrun 100%Z ["/d/multi_train"] [] [] empty_best); reflexivity.
Defined.

(** C2, as stated, fails: the exception raised for the stray log is not of
    class [LookupError]. *)
Lemma missing_anchor_not_LookupError :
  ("baselines" ∉ split Corpus.stray) /\
  ~ (exists e, get_sacred_config Corpus.stray_world Corpus.stray = raise e /\
               is_LookupError e = true).
Proof.
  split.
  - rewrite list_elem_of_In. vm_compute. intuition discriminate.
  - intros (e & He & Hcls). vm_compute in He. by inversion He; subst.
Qed.

(** ** Opponent identity *)

Section Identity.

Context `{Numpy}.
Variable w : World.

(** What [observe] returns comes from the configuration of the run. *)
Lemma observe_key W event_path k r :
  observe w W event_path = ok (k, r) ->
  exists config zoo_path,
    get_sacred_config w event_path = ok config /\
    resolve_zoo_path config = ok zoo_path /\
    k = (env_name config, victim_index config, zoo_path).
Proof.
  unfold observe. intros Hobs.
  destruct (get_sacred_config w event_path) as [e|config]; [done|].
  simpl in Hobs.
  destruct (resolve_zoo_path config) as [e|zoo_path] eqn:Hz; [done|].
  simpl in Hobs.
  destruct (get_stats w event_path W !! _); [|discriminate Hobs].
  inversion Hobs; subst. by exists config, zoo_path.
Qed.

(** C5, as the code has it.  Line 95 reads [config['load_policy']] exactly
    when the victim is not a zoo policy.  If the victim is not a zoo policy
    and the loaded policy is one, with path [P], the opponent identity is
    [P], whatever the victim path.  For a configuration that has the
    descriptor whenever its victim is not a zoo policy, the identity is
    otherwise the victim path; when the victim is a zoo policy it is the
    victim path whether there is a descriptor or not.  A configuration whose
    victim is not a zoo policy and which has no descriptor has no identity:
    the read raises [KeyError], and so does the loop body for a log of that
    run, from every state.  The third component of the aggregation key is
    the identity. *)
Theorem opponent_identity (config : RunConfig) :
  (forall lp,
      victim_type config ≠ "zoo" -> load_policy config = Some lp ->
      lp_type lp = "zoo" ->
      resolve_zoo_path config = ok (lp_path lp)) /\
  ((victim_type config ≠ "zoo" -> is_Some (load_policy config)) ->
   ~ (victim_type config ≠ "zoo" /\
      exists lp, load_policy config = Some lp /\ lp_type lp = "zoo") ->
   resolve_zoo_path config = ok (victim_path config)) /\
  (victim_type config = "zoo" ->
   resolve_zoo_path config = ok (victim_path config)) /\
  (victim_type config ≠ "zoo" -> load_policy config = None ->
   resolve_zoo_path config = raise (KeyError "load_policy") /\
   forall W event_path st,
     get_sacred_config w event_path = ok config ->
     observe w W event_path = raise (KeyError "load_policy") /\
     fold_log w W st event_path = raise (KeyError "load_policy")) /\
  (forall W event_path k r,
      get_sacred_config w event_path = ok config ->
      observe w W event_path = ok (k, r) ->
      resolve_zoo_path config = ok k.2).
Proof.
  split; [|split; [|split; [|split]]].
  - intros lp Hv Hlp Ht. unfold resolve_zoo_path. rewrite Hlp, Ht.
    by destruct (String.eqb_spec (victim_type config) "zoo").
  - intros Hwf Hnot. unfold resolve_zoo_path.
    destruct (String.eqb_spec (victim_type config) "zoo") as [|Hv]; [done|].
    simpl. destruct (Hwf Hv) as [lp Hlp]. rewrite Hlp.
    destruct (String.eqb_spec (lp_type lp) "zoo") as [Ht|]; [|done].
    exfalso. apply Hnot. split; [done|]. by exists lp.
  - intros Hv. unfold resolve_zoo_path. by rewrite Hv.
  - intros Hv Hlp.
    assert (Hz : resolve_zoo_path config = raise (KeyError "load_policy")).
    { unfold resolve_zoo_path. rewrite Hlp.
      by destruct (String.eqb_spec (victim_type config) "zoo"). }
    split; [exact Hz|]. intros W event_path st Hcfg.
    assert (Hobs : observe w W event_path = raise (KeyError "load_policy")).
    { unfold observe. rewrite Hcfg. simpl. by rewrite Hz. }
    split; [exact Hobs|]. unfold fold_log. by rewrite Hobs.
  - intros W event_path k r Hcfg Hobs.
    destruct (observe_key _ _ _ _ Hobs) as (c & z & Hc & Hz & ->).
    rewrite Hcfg in Hc. inversion Hc; subst c. exact Hz.
Qed.

End Identity.

Lemma opponent_identity_witness :
  resolve_zoo_path Corpus.finetune = ok "zoo/3" /\
  resolve_zoo_path Corpus.config = ok "zoo/3" /\
  resolve_zoo_path Corpus.no_descriptor = raise (KeyError "load_policy").
Proof.
  split; [|split].
  - apply (proj1 (opponent_identity (Corpus.world Corpus.finetune [])
                    Corpus.finetune)
                 {| lp_type := "zoo"; lp_path := "zoo/3" |});
      [discriminate | reflexivity | reflexivity].
  - apply (proj1 (proj2 (opponent_identity (Corpus.world Corpus.config [])
                           Corpus.config))).
    + intros Hv. by destruct Hv.
    + intros [Hv _]. by apply Hv.
  - apply (proj1 (proj2 (proj2 (proj2
             (opponent_identity (Corpus.world Corpus.no_descriptor [])
                Corpus.no_descriptor))))); [discriminate | reflexivity].
Defined.

(** C5, as stated, fails: the victim of [Corpus.no_descriptor] is not a zoo
    policy and there is no loaded policy of type zoo, so the claim gives the
    victim path as the opponent identity; the code raises [KeyError]
    instead, and a log of such a run aborts the fold. *)
Lemma opponent_identity_without_descriptor :
  ~ (victim_type Corpus.no_descriptor ≠ "zoo" /\
     exists lp, load_policy Corpus.no_descriptor = Some lp /\
                lp_type lp = "zoo") /\
  resolve_zoo_path Corpus.no_descriptor
    ≠ ok (victim_path Corpus.no_descriptor) /\
  resolve_zoo_path Corpus.no_descriptor = raise (KeyError "load_policy") /\
  fold_log (Corpus.world Corpus.no_descriptor ["A"]) 100 empty_best
           (Corpus.log_of "A") = raise (KeyError "load_policy").
Proof.
  split; [|split; [|split]].
  - intros (_ & lp & Hlp & _). discriminate Hlp.
  - discriminate.
  - reflexivity.
  - vm_compute. reflexivity.
Qed.

(** ** Driver *)

Section Driver.

Context `{Numpy}.
Variable w : World.

Lemma join2_plain path b :
  path ≠ "" -> endswith_sep path = false -> startswith_sep b = false ->
  join2 path b = path +:+ "/" +:+ b.
Proof.
  intros Hne Hend Hb. unfold join2. rewrite Hb, Hend.
  by destruct (String.eqb_spec path "").
Qed.

(** C9: without [--output_path], a single log directory [d] makes [main]
    open [os.path.join(d, 'highest_win_policies_and_rates.json')], which is
    [d/highest_win_policies_and_rates.json] for a [d] that does not end with
    a separator, and dump the result of [find_best] there; several log
    directories make [main] raise [ValueError] before it has opened or
    scanned anything. *)
Theorem default_output_path (args : Args) :
  output_path args = None ->
  (forall d,
      logdir args = [d] ->
      let out := os_path_join d ["highest_win_policies_and_rates.json"] in
      choose_output args = ok out /\
      (d ≠ "" -> endswith_sep d = false ->
       out = d +:+ "/highest_win_policies_and_rates.json") /\
      (writable w out = true ->
       forall doc,
         find_best w [d] (episode_window args) = ok doc ->
         main w args
         = (warnings args ++ [OpenW out; Scan [d]; Dump out doc], ok ()))) /\
  ((1 < length (logdir args))%nat ->
   main w args = ([], raise ValueError)).
Proof.
  intros Hnone. split.
  - intros d Hd out.
    assert (Hout : choose_output args = ok out).
    { unfold choose_output. by rewrite Hnone, Hd. }
    split; [exact Hout|]. split.
    + intros Hne Hend. subst out. unfold os_path_join. simpl.
      by apply join2_plain.
    + intros Hw doc Hdoc. unfold main. rewrite Hout. simpl.
      by rewrite Hw, Hd, Hdoc.
  - intros Hlen. unfold main, choose_output. rewrite Hnone.
    by destruct (Nat.ltb_spec 1 (length (logdir args))); [|lia].
Qed.

End Driver.

Lemma default_output_path_witness :
  choose_output {| logdir := ["/d/multi_train"]; episode_window := 50;
                   output_path := None |}
  = ok "/d/multi_train/highest_win_policies_and_rates.json" /\
  main (Corpus.world Corpus.config ["A"])
       {| logdir := ["/d/a"; "/d/b"]; episode_window := 50;
          output_path := None |}
  = ([], raise ValueError).
Proof.
  split.
  - exact (proj1 (proj1 (default_output_path (Corpus.world Corpus.config ["A"])
             {| logdir := ["/d/multi_train"]; episode_window := 50;
                output_path := None |} eq_refl) "/d/multi_train" eq_refl)).
  - apply (proj2 (default_output_path (Corpus.world Corpus.config ["A"])
             {| logdir := ["/d/a"; "/d/b"]; episode_window := 50;
                output_path := None |} eq_refl)).
    simpl. lia.
Defined.

(** ** Statistics *)

Lemma lookup_touch {K} `{Countable K} {V} (dflt : V) (k k' : K) (d : gmap K V) :
  touch dflt k d !! k' =
  if decide (k = k') then Some (default dflt (d !! k)) else d !! k'.
Proof.
  unfold touch. destruct (d !! k) as [v|] eqn:E.
  - case_decide; [by subst|done].
  - case_decide; [subst; by rewrite lookup_insert_eq|by rewrite lookup_insert_ne].
Qed.

Lemma appended_app events t x l :
  appended (append_to events t x) t l = appended events t (x :: l).
Proof.
  unfold appended, append_to. rewrite lookup_insert_eq.
  destruct l; simpl; [done|]. by rewrite <- app_assoc.
Qed.

Lemma appended_other events t t' x l :
  t' ≠ t -> appended (append_to events t' x) t l = appended events t l.
Proof.
  intros Hne. unfold appended, append_to. by rewrite lookup_insert_ne.
Qed.

Lemma read_event_lookup event events s t :
  (read_event (events, s) event).1 !! t =
  if tracked t
  then appended events t
         (map simple_value (filter (fun value => tag value = t) (summary_value event)))
  else events !! t.
Proof.
  unfold read_event. generalize (step event) as st.
  induction (summary_value event) as [|v vs IH] in events, s |- *; intros st; simpl.
  - by destruct (tracked t).
  - destruct (tracked (tag v)) eqn:Hv; simpl.
    + rewrite IH. rewrite filter_cons. case_decide as Ht.
      * subst t. rewrite Hv. simpl. apply appended_app.
      * destruct (tracked t); [by apply appended_other|].
        unfold append_to. by rewrite lookup_insert_ne.
    + rewrite IH. rewrite filter_cons. case_decide as Ht; [|done].
      subst t. by rewrite Hv.
Qed.

Lemma appended_appended events events' t l1 l2 :
  events' !! t = appended events t l1 ->
  appended events' t l2 = appended events t (l1 ++ l2).
Proof.
  unfold appended. intros E. rewrite E.
  destruct l1 as [|x l1], l2 as [|y l2]; simpl; try done.
  - by rewrite app_nil_r.
  - by rewrite <- app_assoc.
Qed.

Lemma read_events_from log events s t :
  (fold_left read_event log (events, s)).1 !! t =
  if tracked t then appended events t (recorded log t) else events !! t.
Proof.
  induction log as [|event log IH] in events, s |- *; simpl.
  - by destruct (tracked t).
  - destruct (read_event (events, s) event) as [events' s'] eqn:E.
    rewrite IH. pose proof (read_event_lookup event events s t) as Hl.
    rewrite E in Hl. simpl in Hl. destruct (tracked t); [|done].
    by apply appended_appended.
Qed.

(** The dictionary [events] after the loop: a tracked tag has an entry when
    and only when the log records a value for it. *)
Lemma read_events_lookup log t :
  (read_events log).1 !! t =
  if tracked t
  then match recorded log t with [] => None | l => Some l end
  else None.
Proof.
  unfold read_events. rewrite read_events_from. unfold appended.
  rewrite lookup_empty. by destruct (tracked t), (recorded log t).
Qed.

Section Stats.

Context `{Numpy}.
Variable w : World.

Lemma get_stats_lookup event_path W t :
  get_stats w event_path W !! t =
  (fun v => np_mean (slice_from (- W) v)) <$>
  (if decide ("game_win0" = t)
   then Some (recorded (summary_iterator w event_path) t)
   else if tracked t
        then match recorded (summary_iterator w event_path) t with
             | [] => None
             | l => Some l
             end
        else None).
Proof.
  unfold get_stats.
  pose proof (read_events_lookup (summary_iterator w event_path)) as Hl.
  destruct (read_events (summary_iterator w event_path)) as [events last_step].
  simpl in Hl. rewrite lookup_fmap, lookup_touch. f_equal.
  case_decide as Ht; [|apply Hl].
  subst t. rewrite Hl. simpl.
  by destruct (recorded _ _).
Qed.

(** [v[-W:]] for a positive window is the last [min(N, W)] values. *)
Lemma slice_from_lastn {A} (W : Z) (v : list A) :
  (1 <= W)%Z ->
  slice_from (- W) v = lastn (Nat.min (length v) (Z.to_nat W)) v.
Proof.
  intros HW. unfold slice_from, lastn.
  rewrite firstn_rev, rev_involutive.
  destruct (Z.ltb_spec (- W) 0); [|lia]. f_equal. lia.
Qed.

(** A window of zero is not an empty window: [v[-0:]] is all of [v]. *)
Lemma slice_from_zero {A} (v : list A) : slice_from (- 0) v = v.
Proof.
  unfold slice_from. simpl. destruct v; [done|].
  by rewrite Z.min_l by lia.
Qed.

(** For a tracked metric with at least one recorded value and a positive
    window, the reported mean is the mean of the last [min(N, W)] values. *)
Lemma get_stats_window event_path W t :
  let values := recorded (summary_iterator w event_path) t in
  tracked t = true -> values ≠ [] -> (1 <= W)%Z ->
  get_stats w event_path W !! t
  = Some (np_mean (lastn (Nat.min (length values) (Z.to_nat W)) values)).
Proof.
  intros values Ht Hv HW. rewrite get_stats_lookup. fold values.
  rewrite Ht. rewrite <- slice_from_lastn by done.
  case_decide; [done|]. by destruct values.
Qed.

(** C10: the dictionary [get_stats] returns always has the key
    [game_win0], with a NaN mean when the log records no value for it, while
    [game_win1] and [game_tie] are keys exactly when the log records at
    least one value for them. *)
Theorem get_stats_keys event_path W :
  let log := summary_iterator w event_path in
  let stats := get_stats w event_path W in
  is_Some (stats !! "game_win0") /\
  (recorded log "game_win0" = [] ->
   exists x, stats !! "game_win0" = Some x /\ PrimFloat.is_nan x = true) /\
  (forall t, t = "game_win1" \/ t = "game_tie" ->
             (is_Some (stats !! t) <-> recorded log t ≠ [])).
Proof.
  intros log stats. subst stats. split; [|split].
  - rewrite get_stats_lookup. by case_decide.
  - intros Hnone. rewrite get_stats_lookup. fold log. rewrite Hnone.
    case_decide; [|done]. eexists. split; [reflexivity|].
    unfold slice_from. rewrite skipn_nil. apply np_mean_empty.
  - intros t Ht. rewrite get_stats_lookup. fold log.
    destruct Ht as [-> | ->]; (case_decide; [done|]); simpl;
      destruct (recorded log _); simpl;
      (split; [by intros [x Hx] | intros Hne; first [done | by eexists]]).
Qed.

End Stats.

Lemma get_stats_keys_witness :
  (exists x,
      get_stats (Corpus.world Corpus.config []) (Corpus.log_of "E") 100
        !! "game_win0" = Some x /\ PrimFloat.is_nan x = true) /\
  is_Some (get_stats (Corpus.world Corpus.config []) (Corpus.log_of "A") 100
             !! "game_win1").
Proof.
  split.
  - apply (get_stats_keys (Corpus.world Corpus.config []) (Corpus.log_of "E")).
    reflexivity.
  - apply (get_stats_keys (Corpus.world Corpus.config []) (Corpus.log_of "A")
             100);
      [by left|]. vm_compute. discriminate.
Defined.

(** ** The update rule *)

Section Update.

Local Open Scope float_scope.

Lemma update_keep event_path key r st :
  (stored_rate st key <? r) = false ->
  update event_path key r st
  = ok {| best_policy := best_policy st;
          best_winrate := touch 0 key (best_winrate st) |}.
Proof. unfold update, stored_rate. by intros ->. Qed.

Lemma update_replace event_path key r st model :
  (stored_rate st key <? r) = true ->
  get_final_model_path event_path = ok model ->
  update event_path key r st
  = ok {| best_policy := <[key := model]> (best_policy st);
          best_winrate := <[key := r]> (touch 0 key (best_winrate st)) |}.
Proof. unfold update, stored_rate. by intros -> ->. Qed.

Lemma update_inv event_path key r st st' :
  update event_path key r st = ok st' ->
  ((stored_rate st key <? r) = false /\
   st' = {| best_policy := best_policy st;
            best_winrate := touch 0 key (best_winrate st) |}) \/
  ((stored_rate st key <? r) = true /\
   exists model,
     get_final_model_path event_path = ok model /\
     st' = {| best_policy := <[key := model]> (best_policy st);
              best_winrate := <[key := r]> (touch 0 key (best_winrate st)) |}).
Proof.
  unfold update, stored_rate. destruct (_ <? r).
  - destruct (get_final_model_path event_path) as [e|model]; [done|].
    intros [= <-]. right. split; [done|]. by exists model.
  - intros [= <-]. by left.
Qed.

Lemma stored_rate_touch st key k policy :
  stored_rate {| best_policy := policy;
                 best_winrate := touch 0 key (best_winrate st) |} k
  = stored_rate st k.
Proof.
  unfold stored_rate. simpl. rewrite lookup_touch.
  case_decide; [by subst|done].
Qed.

Lemma stored_rate_insert st key k r policy :
  stored_rate {| best_policy := policy;
                 best_winrate := <[key := r]> (touch 0 key (best_winrate st)) |} k
  = if decide (key = k) then r else stored_rate st k.
Proof.
  unfold stored_rate. simpl. case_decide.
  - subst. by rewrite lookup_insert_eq.
  - rewrite lookup_insert_ne, lookup_touch by done. by case_decide.
Qed.

(** One update never lowers a stored win rate. *)
Lemma update_rate_step event_path key r st st' k :
  update event_path key r st = ok st' ->
  stored_rate st' k = stored_rate st k \/
  (stored_rate st k <? stored_rate st' k) = true.
Proof.
  intros Hup. destruct (update_inv _ _ _ _ _ Hup) as [[_ ->]|[Hlt (m & _ & ->)]].
  - left. apply stored_rate_touch.
  - rewrite stored_rate_insert. case_decide; [subst; by right|by left].
Qed.

End Update.

Section Fold.

Local Open Scope float_scope.
Context `{Numpy}.
Variable w : World.

Lemma fold_log_rate_step W st event_path st' k :
  fold_log w W st event_path = ok st' ->
  stored_rate st' k = stored_rate st k \/
  (stored_rate st k <? stored_rate st' k) = true.
Proof.
  unfold fold_log. destruct (observe w W event_path) as [e|[key r]]; [done|].
  simpl. apply update_rate_step.
Qed.

Lemma fold_logs_rate W paths st st' k :
  fold_logs w W paths st = ok st' ->
  stored_rate st' k = stored_rate st k \/
  (stored_rate st k <? stored_rate st' k) = true.
Proof.
  unfold fold_logs.
  induction paths as [|p paths IH] in st |- *; simpl.
  - intros [= <-]. by left.
  - change (fold_result (fold_log w W) (p :: paths) st)
      with (fold_log w W st p ≫= fold_result (fold_log w W) paths).
    destruct (fold_log w W st p) as [e|st1] eqn:E; [done|]. simpl.
    intros Hrest. apply IH in Hrest.
    destruct (fold_log_rate_step _ _ _ _ k E) as [E1|L1], Hrest as [E2|L2].
    + left. congruence.
    + right. congruence.
    + right. congruence.
    + right. eapply ltb_trans; eassumption.
Qed.

(** C6: the loop body replaces the record of the key of a log exactly when
    the win rate of the log is strictly greater than the stored one, which
    is 0.0 for a key not seen before; on a tie the record stays.  Hence,
    over any number of logs folded, no stored win rate decreases: it stays
    or becomes strictly greater. *)
Theorem replace_iff_strictly_greater W st event_path key r :
  observe w W event_path = ok (key, r) ->
  ((stored_rate st key <? r) = false ->
   exists st',
     fold_log w W st event_path = ok st' /\
     best_policy st' = best_policy st /\
     stored_rate st' key = stored_rate st key) /\
  ((stored_rate st key <? r) = true ->
   forall model,
     get_final_model_path event_path = ok model ->
     exists st',
       fold_log w W st event_path = ok st' /\
       best_policy st' !! key = Some model /\
       best_winrate st' !! key = Some r) /\
  (r = stored_rate st key -> (stored_rate st key <? r) = false) /\
  (forall paths st' k,
      fold_logs w W paths st = ok st' ->
      (stored_rate st' k = stored_rate st k \/
       (stored_rate st k <? stored_rate st' k) = true) /\
      (stored_rate st' k <? stored_rate st k) = false).
Proof.
  intros Hobs. unfold fold_log. rewrite Hobs. simpl.
  split; [|split; [|split]].
  - intros Hle. rewrite (update_keep _ _ _ _ Hle). eexists. split; [done|].
    split; [done|]. apply stored_rate_touch.
  - intros Hlt model Hm. rewrite (update_replace _ _ _ _ _ Hlt Hm).
    eexists. split; [done|]. simpl. by rewrite !lookup_insert_eq.
  - intros ->. apply ltb_irrefl.
  - intros paths st' k Hf.
    pose proof (fold_logs_rate _ _ _ _ k Hf) as Hm. split; [exact Hm|].
    destruct Hm as [->|Hlt]; [apply ltb_irrefl | by apply ltb_asym].
Qed.

End Fold.

Lemma replace_iff_strictly_greater_witness :
  exists st',
    fold_log (Corpus.world Corpus.config []) 100 empty_best (Corpus.log_of "A") = ok st' /\
    best_policy st' !! Corpus.K = Some "multi_train/A/baselines/t/final_model" /\
    best_winrate st' !! Corpus.K = Some Corpus.rate_A.
Proof.
  assert (Hobs : observe (Corpus.world Corpus.config []) 100 (Corpus.log_of "A")
                 = ok (Corpus.K, Corpus.rate_A)) by (vm_compute; reflexivity).
  apply (proj1 (proj2 (replace_iff_strictly_greater
                         (Corpus.world Corpus.config []) 100 empty_best _ _ _ Hobs)));
    vm_compute; reflexivity.
Defined.

(** ** Two logs for one key *)

Section TwoLogs.

Local Open Scope float_scope.
Context `{Numpy}.
Variable w : World.

Lemma update_total event_path key r st model :
  get_final_model_path event_path = ok model ->
  update event_path key r st = ok (updated st key r model).
Proof.
  intros Hm. unfold updated.
  destruct (stored_rate st key <? r) eqn:E.
  - by apply update_replace.
  - by apply update_keep.
Qed.

Lemma updated_rate st key r model :
  best_winrate (updated st key r model) !! key
  = Some (if stored_rate st key <? r then r else stored_rate st key).
Proof.
  unfold updated. destruct (stored_rate st key <? r); simpl.
  - by rewrite lookup_insert_eq.
  - rewrite lookup_touch. by case_decide.
Qed.

Lemma updated_policy st key r model :
  best_policy (updated st key r model) !! key
  = if stored_rate st key <? r then Some model else best_policy st !! key.
Proof.
  unfold updated. destruct (stored_rate st key <? r); simpl; [|done].
  by rewrite lookup_insert_eq.
Qed.

Lemma updated_stored_rate st key r model :
  stored_rate (updated st key r model) key
  = if stored_rate st key <? r then r else stored_rate st key.
Proof. unfold stored_rate at 1. by rewrite updated_rate. Qed.

Lemma fold_two W st p q key a b mp mq :
  observe w W p = ok (key, a) -> observe w W q = ok (key, b) ->
  get_final_model_path p = ok mp -> get_final_model_path q = ok mq ->
  fold_logs w W [p; q] st = ok (updated (updated st key a mp) key b mq).
Proof.
  intros Hp Hq Hmp Hmq. unfold fold_logs. simpl.
  change (fold_log w W st p ≫=
            (fun s' => fold_log w W s' q ≫= (fun s'' => ok s''))
          = ok (updated (updated st key a mp) key b mq)).
  unfold fold_log. rewrite Hp. simpl. rewrite (update_total _ _ _ _ _ Hmp).
  simpl. rewrite Hq. simpl. by rewrite (update_total _ _ _ _ _ Hmq).
Qed.

(** C7: two logs [A] and [B] with the same key, win rates [a] and [b], of
    which [b] also beats the stored win rate (0.0 when the key is new).
    When [a < b], folding them in either order leaves [b] and the model path
    of [B] in the record of the key.  When [a = b], the record holds the
    model path of the log folded first. *)
Theorem best_of_two W st pA pB key a b mA mB :
  observe w W pA = ok (key, a) -> observe w W pB = ok (key, b) ->
  get_final_model_path pA = ok mA -> get_final_model_path pB = ok mB ->
  (stored_rate st key <? b) = true ->
  exists st1 st2,
    fold_logs w W [pA; pB] st = ok st1 /\
    fold_logs w W [pB; pA] st = ok st2 /\
    ((a <? b) = true ->
     best_winrate st1 !! key = Some b /\ best_policy st1 !! key = Some mB /\
     best_winrate st2 !! key = Some b /\ best_policy st2 !! key = Some mB) /\
    (a = b ->
     best_winrate st1 !! key = Some b /\ best_policy st1 !! key = Some mA /\
     best_winrate st2 !! key = Some b /\ best_policy st2 !! key = Some mB).
Proof.
  intros HA HB HmA HmB Hb.
  exists (updated (updated st key a mA) key b mB),
         (updated (updated st key b mB) key a mA).
  split; [by apply fold_two|]. split; [by apply fold_two|].
  rewrite !updated_rate, !updated_policy, !updated_stored_rate, Hb.
  split.
  - intros Hab. rewrite (ltb_asym _ _ Hab).
    destruct (stored_rate st key <? a); [by rewrite Hab | by rewrite Hb].
  - intros ->. by rewrite Hb, ltb_irrefl.
Qed.

End TwoLogs.

Lemma best_of_two_witness :
  exists st1 st2,
    fold_logs (Corpus.world Corpus.config []) 100 [Corpus.log_of "A"; Corpus.log_of "B"]
              empty_best = ok st1 /\
    fold_logs (Corpus.world Corpus.config []) 100 [Corpus.log_of "B"; Corpus.log_of "A"]
              empty_best = ok st2 /\
    best_winrate st1 !! Corpus.K = Some Corpus.rate_B /\
    best_winrate st2 !! Corpus.K = Some Corpus.rate_B /\
    best_policy st2 !! Corpus.K = Some "multi_train/B/baselines/t/final_model" /\
    best_policy st1 !! Corpus.K = Some "multi_train/B/baselines/t/final_model".
Proof.
  destruct (best_of_two (Corpus.world Corpus.config []) 100 empty_best
              (Corpus.log_of "A") (Corpus.log_of "B") Corpus.K
              Corpus.rate_A Corpus.rate_B
              "multi_train/A/baselines/t/final_model"
              "multi_train/B/baselines/t/final_model")
    as (st1 & st2 & H1 & H2 & Hlt & _);
    try (vm_compute; reflexivity).
  exists st1, st2. split; [exact H1|]. split; [exact H2|].
  destruct Hlt as (Hr1 & Hp1 & Hr2 & Hp2); [reflexivity|]. by repeat split.
Defined.

(** ** Discovery *)

Section TreeInduction.

Variable P : tree -> Prop.
Hypothesis P_Dir :
  forall dirs files, Forall (fun d => P d.2) dirs -> P (Dir dirs files).

Lemma tree_induction : forall t, P t.
Proof.
  fix IH 1. intros [dirs files]. apply P_Dir.
  induction dirs as [|d dirs IHdirs]; constructor; [apply IH | exact IHdirs].
Qed.

End TreeInduction.

(** [event_files] in the shape of the source: the walk goes on in the
    directories that the filter of line 20 keeps. *)
Lemma event_files_Dir path dirs files :
  event_files path (Dir dirs files)
  = here path files
    ++ flat_map (fun d => event_files (join2 path d.1) d.2)
                (filter (fun d => keep_dir d = true) dirs).
Proof.
  simpl. unfold here. f_equal.
  induction dirs as [|d dirs IH]; simpl; [done|].
  rewrite filter_cons. destruct (keep_dir d); simpl; [by rewrite IH | exact IH].
Qed.

Lemma keep_dir_name d : keep_dir d = true <-> d.1 ≠ "checkpoint".
Proof.
  unfold keep_dir. destruct (String.eqb_spec d.1 "checkpoint"); simpl; split; done.
Qed.

Lemma elem_of_here p path files :
  p ∈ here path files <->
  last2 (split path) = ["rl"; "tb"] /\
  exists name, name ∈ files /\ contains "tfevents" name = true /\
               p = join2 path name.
Proof.
  unfold here. case_decide as Hsuf.
  - rewrite list_elem_of_In, in_map_iff. split.
    + intros (name & <- & Hin). split; [done|]. exists name.
      apply list_elem_of_In, list_elem_of_filter in Hin as [Hc Hin]. done.
    + intros (_ & name & Hin & Hc & ->). exists name. split; [done|].
      apply list_elem_of_In, list_elem_of_filter. done.
  - split; [by intros ?%elem_of_nil | by intros [? _]].
Qed.

Lemma has_file_here dirs files name :
  has_file (Dir dirs files) [] name <-> name ∈ files.
Proof.
  split.
  - intros (dirs' & files' & Hat & Hin). by inversion Hat; subst.
  - intros Hin. exists dirs, files. split; [constructor | done].
Qed.

Lemma has_file_sub dirs files n ds name :
  has_file (Dir dirs files) (n :: ds) name <->
  exists sub, (n, sub) ∈ dirs /\ has_file sub ds name.
Proof.
  split.
  - intros (dirs' & files' & Hat & Hin). inversion Hat; subst.
    exists sub. split; [done|]. by exists dirs', files'.
  - intros (sub & Hsub & dirs' & files' & Hat & Hin).
    exists dirs', files'. split; [by econstructor | done].
Qed.

Lemma elem_of_event_files p : forall t top,
  p ∈ event_files top t <->
  exists ds name,
    has_file t ds name /\ ("checkpoint" ∉ ds) /\
    last2 (split (os_path_join top ds)) = ["rl"; "tb"] /\
    contains "tfevents" name = true /\
    p = join2 (os_path_join top ds) name.
Proof.
  induction t as [dirs files IH] using tree_induction. intros top.
  rewrite event_files_Dir, elem_of_app, elem_of_here. split.
  - intros [(Hsuf & name & Hin & Hc & ->) | Hsub].
    + exists [], name. rewrite has_file_here.
      repeat split; try done. apply not_elem_of_nil.
    + apply list_elem_of_In, in_flat_map in Hsub as ([n sub] & Hd & Hp).
      apply list_elem_of_In, list_elem_of_filter in Hd as [Hkeep Hd].
      apply keep_dir_name in Hkeep. simpl in *.
      rewrite Forall_forall in IH.
      apply list_elem_of_In, (IH _ Hd) in Hp
        as (ds & name & Hf & Hck & Hsuf & Hc & ->).
      exists (n :: ds), name. rewrite has_file_sub.
      repeat split; try done.
      * by exists sub.
      * rewrite not_elem_of_cons. split; [congruence | done].
  - intros ([|n ds] & name & Hf & Hck & Hsuf & Hc & ->).
    + left. apply has_file_here in Hf. split; [done|]. by exists name.
    + right. apply has_file_sub in Hf as (sub & Hd & Hf).
      apply not_elem_of_cons in Hck as [Hn Hck].
      apply list_elem_of_In, in_flat_map. exists (n, sub). split.
      * apply list_elem_of_In, list_elem_of_filter. split; [|done].
        apply keep_dir_name. simpl. congruence.
      * rewrite Forall_forall in IH. apply list_elem_of_In, (IH _ Hd).
        by exists ds, name.
Qed.

Lemma event_files_prune : forall t top,
  event_files top (prune t) = event_files top t.
Proof.
  induction t as [dirs files IH] using tree_induction. intros top.
  simpl. f_equal.
  induction IH as [|d dirs Hd _ IHdirs]; simpl; [done|].
  destruct (keep_dir d) eqn:Hkeep; simpl; [|exact IHdirs].
  change (keep_dir (d.1, prune d.2)) with (keep_dir d).
  by rewrite Hkeep, Hd, IHdirs.
Qed.

(** C8: [event_files] yields exactly the paths [os.path.join(root, name)] of
    the files [name] that contain [tfevents] and lie in a directory whose
    path [root] ends with the segments [rl], [tb], reached from the log
    directory without passing through a directory named [checkpoint]; and
    what lies under [checkpoint] directories, at any depth, contributes
    nothing: the walk of a tree and of the tree without them yield the
    same. *)
Theorem event_files_spec top t :
  (forall p,
      p ∈ event_files top t <->
      exists ds name,
        has_file t ds name /\ ("checkpoint" ∉ ds) /\
        last2 (split (os_path_join top ds)) = ["rl"; "tb"] /\
        contains "tfevents" name = true /\
        p = join2 (os_path_join top ds) name) /\
  event_files top (prune t) = event_files top t.
Proof.
  split; [intros p; apply elem_of_event_files | apply event_files_prune].
Qed.

(** ** Reshaping *)

Lemma od_lookup_upsert {K V} `{EqDecision K} (k k' : K) (dflt : V) f d :
  od_lookup k' (od_upsert k dflt f d)
  = if decide (k = k') then Some (f (default dflt (od_lookup k d)))
    else od_lookup k' d.
Proof.
  induction d as [|[k0 v0] d IH]; simpl.
  - repeat case_decide; done.
  - destruct (decide (k0 = k)) as [->|Hne]; simpl.
    + repeat case_decide; done.
    + rewrite IH. repeat case_decide; congruence.
Qed.

Lemma leaf_unstack_item {V} (res : Nested V) (k0 k : Key) (v : V) :
  leaf (unstack_item res (k0, v)) k
  = if decide (k0 = k) then Some v else leaf res k.
Proof.
  destruct k0 as [[e i] p], k as [[e' i'] p']. unfold leaf, unstack_item, od_set.
  simpl. rewrite od_lookup_upsert.
  destruct (decide (e = e')) as [<-|He].
  - rewrite od_lookup_upsert. destruct (decide (i = i')) as [<-|Hi].
    + rewrite od_lookup_upsert. destruct (decide (p = p')) as [<-|Hp].
      * by rewrite decide_True.
      * rewrite decide_False by congruence.
        destruct (od_lookup e res) as [by_index|]; simpl; [|done].
        by destruct (od_lookup i by_index).
    + rewrite decide_False by congruence.
      by destruct (od_lookup e res).
  - by rewrite decide_False by congruence.
Qed.

Lemma leaf_fold_miss {V} (l : list (Key * V)) (res : Nested V) (k : Key) :
  k ∉ l.*1 -> leaf (fold_left unstack_item l res) k = leaf res k.
Proof.
  induction l as [|[k0 v0] l IH] in res |- *; [done|].
  rewrite fmap_cons, not_elem_of_cons. cbn [fold_left fst]. intros [Hne Hnot].
  rewrite IH, leaf_unstack_item by done. by rewrite decide_False.
Qed.

Lemma leaf_fold_hit {V} (l : list (Key * V)) (res : Nested V) (k : Key) v :
  NoDup l.*1 -> (k, v) ∈ l ->
  leaf (fold_left unstack_item l res) k = Some v.
Proof.
  induction l as [|[k0 v0] l IH] in res |- *.
  - by intros _ ?%elem_of_nil.
  - rewrite fmap_cons, NoDup_cons, elem_of_cons. cbn [fold_left fst].
    intros [Hfresh Hnd] [[= <- <-]|Hin].
    + rewrite leaf_fold_miss, leaf_unstack_item by done. by rewrite decide_True.
    + by apply IH.
Qed.

(** The leaves of [unstack d] are the entries of [d]. *)
Lemma leaf_unstack {V} (d : gmap Key V) (k : Key) :
  leaf (unstack d) k = d !! k.
Proof.
  unfold unstack, sorted_items.
  pose proof (merge_sort_Permutation item_le (map_to_list d)) as Hperm.
  destruct (d !! k) as [v|] eqn:E.
  - apply leaf_fold_hit.
    + rewrite Hperm. apply NoDup_fst_map_to_list.
    + rewrite Hperm. by apply elem_of_map_to_list.
  - rewrite leaf_fold_miss; [done|].
    rewrite Hperm. intros ((k' & v) & -> & Hin)%list_elem_of_fmap.
    apply elem_of_map_to_list in Hin. simpl in E. congruence.
Qed.

(** [unstack] lists the keys in increasing order. *)
Lemma sorted_items_sorted {V} (d : gmap Key V) :
  Sorted item_le (sorted_items d).
Proof.
  apply Sorted_merge_sort.
  intros a b. unfold item_le, key_compare.
  rewrite (String.compare_antisym b.1.1.1 a.1.1.1),
    (Z.compare_antisym a.1.1.2 b.1.1.2),
    (String.compare_antisym b.1.2 a.1.2).
  destruct (String.compare a.1.1.1 b.1.1.1); simpl.
  all: try destruct (Z.compare a.1.1.2 b.1.1.2); simpl.
  all: try destruct (String.compare a.1.2 b.1.2); simpl.
  all: try (by left); try (by right).
Qed.

(** ** The result document *)

Section Document.

Context `{Numpy}.
Variable w : World.

(** The leaves of the document are the entries of the two dictionaries the
    loop has built. *)
Lemma find_best_leaves logdirs W doc :
  find_best w logdirs W = ok doc ->
  exists st,
    fold_logs w W (discover w logdirs) empty_best = ok st /\
    forall k, leaf (policies doc) k = best_policy st !! k /\
              leaf (winrates doc) k = best_winrate st !! k.
Proof.
  unfold find_best.
  destruct (fold_logs w W (discover w logdirs) empty_best) as [e|st]; [done|].
  simpl. intros [= <-]. exists st. split; [done|]. intros k. simpl.
  by rewrite !leaf_unstack.
Qed.

Lemma update_policies_have_rates event_path key r st st' :
  policies_have_rates st -> update event_path key r st = ok st' ->
  policies_have_rates st'.
Proof.
  intros Hinv Hup k.
  destruct (update_inv _ _ _ _ _ Hup) as [[_ ->]|[_ (m & _ & ->)]]; simpl.
  - intros Hp. rewrite lookup_touch. case_decide; [done | by apply Hinv].
  - destruct (decide (key = k)) as [->|Hne].
    + by rewrite !lookup_insert_eq.
    + rewrite !lookup_insert_ne, lookup_touch by done.
      case_decide; [done | apply Hinv].
Qed.

Lemma fold_logs_policies_have_rates W paths st st' :
  policies_have_rates st -> fold_logs w W paths st = ok st' ->
  policies_have_rates st'.
Proof.
  unfold fold_logs. induction paths as [|p paths IH] in st |- *.
  - by intros Hinv [= <-].
  - change (fold_result (fold_log w W) (p :: paths) st)
      with (fold_log w W st p ≫= fold_result (fold_log w W) paths).
    intros Hinv. destruct (fold_log w W st p) as [e|st1] eqn:E; [done|].
    simpl. apply IH. unfold fold_log in E.
    destruct (observe w W p) as [e|[key r]]; [done|].
    by eapply update_policies_have_rates.
Qed.

(** The half of the parallel structure that the loop keeps: a leaf of
    [policies] always has a leaf of [winrates] beside it. *)
Lemma policy_leaf_has_winrate_leaf logdirs W doc k :
  find_best w logdirs W = ok doc ->
  is_Some (leaf (policies doc) k) -> is_Some (leaf (winrates doc) k).
Proof.
  intros (st & Hfold & Hleaf)%find_best_leaves.
  destruct (Hleaf k) as [-> ->].
  eapply fold_logs_policies_have_rates; [|exact Hfold].
  intros k'. simpl. rewrite lookup_empty. by intros [? ?].
Qed.

End Document.

(** ** Logs without a win or with a metric never recorded *)

(** A NaN win rate is never selected: the record of the key stays. *)
Lemma update_nan event_path key r st :
  PrimFloat.is_nan r = true ->
  update event_path key r st
  = ok {| best_policy := best_policy st;
          best_winrate := touch 0%float key (best_winrate st) |}.
Proof. intros Hnan. apply update_keep. by apply ltb_nan_r. Qed.

(** C1 at a corpus of one log whose adversary never wins: the win rate 0.0
    is not strictly greater than the 0.0 that reading [best_winrate[key]]
    has just inserted, so [winrates] has a leaf for the key and [policies]
    has none. *)
Theorem winrates_leaf_without_policy :
  exists doc,
    find_best (Corpus.world Corpus.config ["L"]) ["/d/multi_train"] 100
    = ok doc /\
    leaf (winrates doc) Corpus.K = Some 0%float /\
    leaf (policies doc) Corpus.K = None.
Proof. eexists. split; [vm_compute; reflexivity|]. by vm_compute. Qed.

(** C3 at a log without events.  With the adversary in slot 0 the NaN mean
    of [game_win0] goes through the comparison and [find_best] returns; with
    the adversary in slot 1, [stats['game_win1']] raises [KeyError], which
    ends [find_best] and [main]. *)
Theorem missing_win_metric_aborts :
  Corpus.events_of (Corpus.log_of "E") = [] /\
  (exists doc,
      find_best (Corpus.world Corpus.config_slot1 ["E"]) ["/d/multi_train"] 100
      = ok doc) /\
  find_best (Corpus.world Corpus.config ["E"]) ["/d/multi_train"] 100
  = raise (KeyError "game_win1") /\
  (main (Corpus.world Corpus.config ["E"])
        {| logdir := ["/d/multi_train"]; episode_window := 100;
           output_path := None |}).2
  = raise (KeyError "game_win1").
Proof.
  split; [by vm_compute|]. split; [|split; by vm_compute].
  eexists. vm_compute. reflexivity.
Qed.

(** C4 at the same log: no value is recorded for any of the three metrics;
    the dictionary of means has NaN for [game_win0] and no entry, NaN or
    other, for [game_win1] and [game_tie]. *)
Theorem missing_metric_has_no_mean :
  let stats := get_stats (Corpus.world Corpus.config []) (Corpus.log_of "E") 100 in
  Corpus.events_of (Corpus.log_of "E") = [] /\
  stats !! "game_win0" = Some nan /\
  stats !! "game_win1" = None /\
  stats !! "game_tie" = None.
Proof. repeat split; by vm_compute. Qed.

(** ** The corpus, run *)

Example split_absolute : split "/a/rl/tb" = [""; "a"; "rl"; "tb"].
Proof. reflexivity. Qed.

Example split_trailing : split "rl/tb/" = ["rl"; "tb"; ""].
Proof. reflexivity. Qed.

Example strip_to_baselines :
  _strip_up_to (Corpus.log_of "A") "baselines" = ok "/d/multi_train/A".
Proof. reflexivity. Qed.

Example model_path_A :
  get_final_model_path (Corpus.log_of "A")
  = ok "multi_train/A/baselines/t/final_model".
Proof. reflexivity. Qed.

Example discover_AB :
  discover (Corpus.world Corpus.config ["A"; "B"]) ["/d/multi_train"]
  = [Corpus.log_of "A"; Corpus.log_of "B"].
Proof. reflexivity. Qed.

Example window_takes_the_tail :
  get_stats (Corpus.world Corpus.config []) (Corpus.log_of "A") 38
    !! "game_win1" = Some 0%float.
Proof. by vm_compute. Qed.

Example find_best_AB :
  find_best (Corpus.world Corpus.config ["A"; "B"]) ["/d/multi_train"] 100
  = ok {| policies :=
            [("Env1", [(0%Z, [("zoo/3", "multi_train/B/baselines/t/final_model")])])];
          winrates := [("Env1", [(0%Z, [("zoo/3", Corpus.rate_B)])])] |}.
Proof. by vm_compute. Qed.

(** * Further properties *)


(** Closed side conditions on lists of strings. *)
Ltac by_decide := apply (bool_decide_unpack _); vm_compute; exact I.

(** ** Paths as lists of components *)

Lemma split_nonempty s : split s ≠ [].
Proof.
  destruct s as [|c s]; simpl; [done|].
  destruct (Ascii.eqb c sep); [done|]. by destruct (split s).
Qed.

Lemma sep_join_cons x y l :
  sep_join (x :: y :: l) = x +:+ "/" +:+ sep_join (y :: l).
Proof. reflexivity. Qed.

Lemma sep_join_split s : sep_join (split s) = s.
Proof.
  induction s as [|c s IH]; [done|]. simpl.
  destruct (Ascii.eqb_spec c sep) as [->|Hc].
  - pose proof (split_nonempty s) as Hne.
    destruct (split s) as [|w ws]; [done|].
    rewrite sep_join_cons, IH. done.
  - pose proof (split_nonempty s) as Hne.
    destruct (split s) as [|w ws]; [done|].
    unfold sep_join in *. destruct ws as [|w' ws]; simpl in *; by rewrite <- IH.
Qed.

Lemma split_app_sep a b : split (a +:+ String sep b) = split a ++ split b.
Proof.
  induction a as [|c a IH]; simpl.
  - done.
  - rewrite IH. destruct (Ascii.eqb c sep); [done|].
    pose proof (split_nonempty a). by destruct (split a).
Qed.

Lemma split_sep_free s : sep_free s = true -> split s = [s].
Proof.
  induction s as [|c s IH]; simpl; [done|].
  intros [Hc Hs]%andb_true_iff. apply negb_true_iff in Hc. rewrite Hc.
  by rewrite IH.
Qed.

Lemma split_sep_join l :
  l ≠ [] -> Forall (fun s => sep_free s = true) l -> split (sep_join l) = l.
Proof.
  intros Hne Hall. induction Hall as [|x l Hx Hl IH]; [done|].
  destruct l as [|y l].
  - simpl. by apply split_sep_free.
  - rewrite sep_join_cons.
    change (x +:+ "/" +:+ sep_join (y :: l))
      with (x +:+ String sep (sep_join (y :: l))).
    rewrite split_app_sep, split_sep_free, IH by done. done.
Qed.

Lemma plain_sep_free s : plain s = true -> sep_free s = true.
Proof. by intros [_ ?]%andb_true_iff. Qed.

Lemma plain_nonempty s : plain s = true -> s ≠ "".
Proof.
  intros [Hne _]%andb_true_iff ->. done.
Qed.

Lemma sep_free_startswith s : sep_free s = true -> startswith_sep s = false.
Proof.
  destruct s as [|c s]; simpl; [done|].
  intros [Hc _]%andb_true_iff. by apply negb_true_iff in Hc.
Qed.

Lemma sep_free_endswith s : sep_free s = true -> endswith_sep s = false.
Proof.
  induction s as [|c s IH]; simpl; [done|].
  intros [Hc Hs]%andb_true_iff. apply negb_true_iff in Hc.
  destruct s; [done | by apply IH].
Qed.

Lemma endswith_sep_app a b : b ≠ "" -> endswith_sep (a +:+ b) = endswith_sep b.
Proof.
  intros Hb. induction a as [|c a IH]; [done|].
  change (String c a +:+ b) with (String c (a +:+ b)).
  simpl. rewrite IH. destruct (a +:+ b) eqn:E; [|done].
  destruct a; [|done]. simpl in E. by subst.
Qed.

Lemma app_nonempty_r a b : b ≠ "" -> a +:+ b ≠ "".
Proof. destruct a; [done|]. done. Qed.

Lemma rooted_sep_free pre :
  rooted pre -> Forall (fun s => sep_free s = true) pre.
Proof.
  destruct pre as [|h t]; [done|]. intros [Hh Ht]. constructor.
  - destruct Hh as [->|Hh]; [done | by apply plain_sep_free].
  - eapply Forall_impl; [exact Ht|]. apply plain_sep_free.
Qed.

Lemma rooted_snoc pre b : rooted pre -> plain b = true -> rooted (pre ++ [b]).
Proof.
  destruct pre as [|h t]; [done|]. intros [Hh Ht] Hb. split; [done|].
  apply Forall_app. split; [done|]. by constructor.
Qed.

Lemma append_assoc (a b c : string) : (a +:+ b) +:+ c = a +:+ (b +:+ c).
Proof.
  induction a as [|x a IH]; [done|].
  change ((String x a +:+ b) +:+ c) with (String x ((a +:+ b) +:+ c)).
  by rewrite IH.
Qed.

Lemma sep_join_snoc pre b :
  pre ≠ [] -> sep_join (pre ++ [b]) = sep_join pre +:+ "/" +:+ b.
Proof.
  induction pre as [|h t IH]; [done|]. intros _.
  destruct t as [|y t]; [done|].
  change ((h :: y :: t) ++ [b]) with (h :: (y :: t) ++ [b]).
  change ((y :: t) ++ [b]) with (y :: t ++ [b]) at 1.
  rewrite !sep_join_cons.
  change (y :: t ++ [b]) with ((y :: t) ++ [b]). rewrite IH by done.
  by rewrite !append_assoc.
Qed.

(** The path of a directory other than the root is not empty and does not
    end with a separator. *)
Lemma sep_join_rooted pre :
  rooted pre -> pre ≠ [""] ->
  sep_join pre ≠ "" /\ endswith_sep (sep_join pre) = false.
Proof.
  destruct pre as [|h t]; [done|]. intros [Hh Ht] Hne.
  induction Ht as [|y t Hy Ht IH] in h, Hh, Hne |- *.
  - destruct Hh as [->|Hh]; [done|]. simpl.
    split; [by apply plain_nonempty | by apply sep_free_endswith, plain_sep_free].
  - rewrite sep_join_cons.
    destruct (IH y) as [Hn He]; [by right | by intros [= ->] |].
    split.
    + apply app_nonempty_r. by destruct h.
    + rewrite endswith_sep_app by (by apply app_nonempty_r).
      by rewrite endswith_sep_app.
Qed.

Lemma join2_plain' path b :
  path ≠ "" -> endswith_sep path = false -> plain b = true ->
  join2 path b = path +:+ "/" +:+ b.
Proof.
  intros Hne Hend Hb. unfold join2.
  rewrite (sep_free_startswith b (plain_sep_free b Hb)), Hend.
  by destruct (String.eqb_spec path "").
Qed.

(** [os.path.join] of a directory path and plain names appends them as
    components. *)
Lemma os_path_join_rooted pre l :
  rooted pre -> pre ≠ [""] -> Forall (fun s => plain s = true) l ->
  os_path_join (sep_join pre) l = sep_join (pre ++ l).
Proof.
  intros Hpre Hne Hl. unfold os_path_join.
  induction Hl as [|b l Hb Hl IH] in pre, Hpre, Hne |- *; simpl.
  - by rewrite app_nil_r.
  - destruct (sep_join_rooted pre Hpre Hne) as [Hn He].
    rewrite (join2_plain' _ _ Hn He Hb), <- sep_join_snoc
      by (by destruct pre).
    rewrite IH; [by rewrite <- app_assoc | by apply rooted_snoc |].
    destruct pre as [|? [|? ?]]; done.
Qed.

(** The components as [_strip_up_to] joins them, the empty first component
    replaced by the separator. *)
Lemma os_path_join_star_rooted pre :
  rooted pre -> pre ≠ [""] ->
  os_path_join_star
    match pre with "" :: rest => "/" :: rest | cs => cs end
  = ok (sep_join pre).
Proof.
  intros Hpre Hne. destruct pre as [|h t]; [done|]. destruct Hpre as [Hh Ht].
  destruct h as [|c h].
  - destruct Ht as [|b t Hb Ht]; [done|]. simpl. f_equal.
    change (fold_left join2 t (join2 "/" b))
      with (os_path_join (join2 "/" b) t).
    replace (join2 "/" b) with (sep_join [""; b]).
    + rewrite os_path_join_rooted; [done| |done|done].
      split; [by left | by constructor].
    + unfold join2. by rewrite (sep_free_startswith b (plain_sep_free b Hb)).
  - simpl. f_equal. change (String c h) with (sep_join [String c h]) at 1.
    change (fold_left join2 t (sep_join [String c h]))
      with (os_path_join (sep_join [String c h]) t).
    rewrite os_path_join_rooted; [done| |done|done].
    destruct Hh as [?|Hh]; [done|]. split; [by right | done].
Qed.

Lemma list_index_app_hit x l1 l2 :
  x ∉ l1 -> list_index x (l1 ++ x :: l2) = Some (length l1).
Proof.
  induction l1 as [|y l1 IH]; simpl.
  - intros _. by rewrite String.eqb_refl.
  - intros [Hne Hnot]%not_elem_of_cons.
    destruct (String.eqb_spec y x); [congruence|].
    by rewrite IH.
Qed.

(** The components [_strip_up_to] keeps are those before the last
    occurrence of the anchor. *)
Lemma strip_components (pre post : list string) dirname :
  dirname ∉ post ->
  list_index dirname (rev (pre ++ dirname :: post)) = Some (length post) /\
  firstn (length (pre ++ dirname :: post) - 1 - length post)
         (pre ++ dirname :: post) = pre.
Proof.
  intros Hnot. split.
  - rewrite rev_app_distr. simpl. rewrite <- app_assoc. simpl.
    rewrite <- length_rev. apply list_index_app_hit.
    by rewrite list_elem_of_In, <- in_rev, <- list_elem_of_In.
  - rewrite length_app. simpl.
    replace (length pre + S (length post) - 1 - length post)%nat
      with (length pre + 0)%nat by lia.
    by rewrite firstn_app_2, app_nil_r.
Qed.

Lemma strip_joined pre dirname post :
  rooted pre -> pre ≠ [""] -> plain dirname = true ->
  Forall (fun s => sep_free s = true) post -> dirname ∉ post ->
  _strip_up_to (sep_join (pre ++ dirname :: post)) dirname
  = ok (sep_join pre).
Proof.
  intros Hpre Hne Hd Hpost Hnot. unfold _strip_up_to.
  rewrite split_sep_join.
  2: { by destruct pre. }
  2: { apply Forall_app. split; [by apply rooted_sep_free|].
       constructor; [by apply plain_sep_free | done]. }
  set (pc := match pre ++ dirname :: post with "" :: rest => "/" :: rest | cs => cs end).
  assert (Hpc : pc = match pre with "" :: rest => "/" :: rest | cs => cs end
                     ++ dirname :: post).
  { subst pc. destruct pre as [|[|c h] t]; done. }
  rewrite Hpc.
  destruct (strip_components
              match pre with "" :: rest => "/" :: rest | cs => cs end
              post dirname Hnot) as [-> ->].
  by apply os_path_join_star_rooted.
Qed.

(** X1: for a path made of the components of a directory, the anchor and
    further components without the anchor among them, [_strip_up_to] returns
    the path of that directory, whose components are the ones before the
    anchor. *)
Theorem strip_round_trip pre dirname post :
  rooted pre -> pre ≠ [""] -> plain dirname = true ->
  Forall (fun s => sep_free s = true) post -> dirname ∉ post ->
  _strip_up_to (sep_join (pre ++ dirname :: post)) dirname
  = ok (sep_join pre) /\
  split (sep_join pre) = pre.
Proof.
  intros Hpre Hne Hd Hpost Hnot. split; [by apply strip_joined|].
  apply split_sep_join; [by destruct pre | by apply rooted_sep_free].
Qed.

Lemma strip_round_trip_witness :
  _strip_up_to (sep_join ([""; "d"; "multi_train"; "A"]
                          ++ "baselines" :: ["t"; "rl"; "tb"; "ev.tfevents"]))
               "baselines"
  = ok (sep_join [""; "d"; "multi_train"; "A"]) /\
  split (sep_join [""; "d"; "multi_train"; "A"])
  = [""; "d"; "multi_train"; "A"].
Proof.
  apply strip_round_trip.
  - split; [by left | by repeat constructor].
  - discriminate.
  - reflexivity.
  - by repeat constructor.
  - by_decide.
Defined.

(** Steps of the error monad on a value that is there. *)
Ltac bind_ok := cbv beta iota delta [mbind result_bind Py.bind ok].

(** X2: when the only occurrence of the anchor is the first component,
    nothing is left to join and [_strip_up_to] raises [TypeError]; when the
    anchor lies directly under the root, the result is the root. *)
Theorem strip_edges dirname post :
  dirname ≠ "" -> dirname ∉ post ->
  (forall path, split path = dirname :: post ->
                _strip_up_to path dirname = raise TypeError) /\
  (forall path, split path = "" :: dirname :: post ->
                _strip_up_to path dirname = ok "/").
Proof.
  intros Hne Hnot. split; intros path Hsplit; unfold _strip_up_to; rewrite Hsplit.
  - destruct dirname as [|c d]; [done|].
    destruct (strip_components [] post (String c d) Hnot) as [Hi Hf].
    simpl in Hi, Hf. simpl. by rewrite Hi, Hf.
  - destruct (strip_components ["/"] post dirname Hnot) as [Hi Hf].
    simpl in Hi, Hf. simpl. by rewrite Hi, Hf.
Qed.

Lemma strip_edges_witness :
  _strip_up_to "baselines/t/rl/tb/ev.tfevents" "baselines" = raise TypeError /\
  _strip_up_to "/baselines/t/rl/tb/ev.tfevents" "baselines" = ok "/".
Proof.
  destruct (strip_edges "baselines" ["t"; "rl"; "tb"; "ev.tfevents"])
    as [Hfirst Hroot]; [discriminate | by_decide |].
  split; [by apply Hfirst | by apply Hroot].
Defined.


Section Paths.

Context `{Numpy}.
Variable w : World.

(** X3: for an event log under [pre/baselines/...], the configuration is
    read from [pre/sacred/train/1/config.json], and what reading that file
    gives, value or error, is what [get_sacred_config] gives. *)
Theorem sacred_config_location pre post :
  rooted pre -> pre ≠ [""] ->
  Forall (fun s => sep_free s = true) post -> "baselines" ∉ post ->
  get_sacred_config w (sep_join (pre ++ "baselines" :: post))
  = load_json w (sep_join (pre ++ ["sacred"; "train"; "1"; "config.json"])).
Proof.
  intros Hpre Hne Hpost Hnot. unfold get_sacred_config.
  rewrite strip_joined by done. bind_ok.
  rewrite os_path_join_rooted; [done..|]. by repeat constructor.
Qed.

End Paths.

Lemma sacred_config_location_witness :
  get_sacred_config (Corpus.world Corpus.config [])
    (sep_join ([""; "d"; "multi_train"; "A"]
               ++ "baselines" :: ["t"; "rl"; "tb"; "ev.tfevents"]))
  = load_json (Corpus.world Corpus.config [])
      (sep_join ([""; "d"; "multi_train"; "A"]
                 ++ ["sacred"; "train"; "1"; "config.json"])).
Proof.
  apply sacred_config_location.
  - split; [by left | by repeat constructor].
  - discriminate.
  - by repeat constructor.
  - by_decide.
Defined.


Lemma model_path_components pre post :
  rooted pre -> pre ≠ [""] ->
  Forall (fun s => sep_free s = true) post -> "rl" ∉ post ->
  get_final_model_path (sep_join (pre ++ "rl" :: post))
  = ok (sep_join
          match list_index "multi_train" (pre ++ ["final_model"]) with
          | Some i => skipn i (pre ++ ["final_model"])
          | None => pre ++ ["final_model"]
          end).
Proof.
  intros Hpre Hne Hpost Hnot. unfold get_final_model_path.
  rewrite strip_joined by done. bind_ok.
  rewrite os_path_join_rooted; [|done..|by repeat constructor].
  rewrite split_sep_join; [done|by destruct pre|].
  apply Forall_app. split; [by apply rooted_sep_free | by repeat constructor].
Qed.

(** X5: for an event log under [pre/rl/...], with no component
    [multi_train] in [pre], the model path is [pre/final_model], the
    absolute prefix included. *)
Theorem model_path_absolute pre post :
  rooted pre -> pre ≠ [""] ->
  Forall (fun s => sep_free s = true) post -> "rl" ∉ post ->
  "multi_train" ∉ pre ->
  get_final_model_path (sep_join (pre ++ "rl" :: post))
  = ok (sep_join pre +:+ "/final_model").
Proof.
  intros Hpre Hne Hpost Hnot Hmt. rewrite model_path_components by done.
  assert (Hidx : list_index "multi_train" (pre ++ ["final_model"]) = None).
  { apply list_index_None. rewrite elem_of_app, list_elem_of_singleton.
    intros [?|?]; done. }
  rewrite Hidx. f_equal. apply sep_join_snoc. by destruct pre.
Qed.

Lemma model_path_absolute_witness :
  get_final_model_path
    (sep_join ([""; "d"; "x"; "baselines"; "t"] ++ "rl" :: ["tb"; "ev.tfevents"]))
  = ok (sep_join [""; "d"; "x"; "baselines"; "t"] +:+ "/final_model").
Proof.
  apply model_path_absolute.
  - split; [by left | by repeat constructor].
  - discriminate.
  - by repeat constructor.
  - by_decide.
  - by_decide.
Defined.


(** X6: for an event log under [.../multi_train/p2/rl/...], the model path
    starts at the first component [multi_train]: it is
    [multi_train/p2/final_model], whatever comes before. *)
Theorem model_path_portable p1 p2 post :
  rooted (p1 ++ "multi_train" :: p2) ->
  Forall (fun s => sep_free s = true) post -> "rl" ∉ post ->
  "multi_train" ∉ p1 ->
  get_final_model_path (sep_join ((p1 ++ "multi_train" :: p2) ++ "rl" :: post))
  = ok (sep_join ("multi_train" :: p2 ++ ["final_model"])).
Proof.
  intros Hpre Hpost Hnot Hmt. rewrite model_path_components; [|done| |done..].
  2: { destruct p1 as [|? [|? ?]]; done. }
  rewrite <- app_assoc. simpl.
  rewrite (list_index_app_hit "multi_train" p1 (p2 ++ ["final_model"]) Hmt).
  by rewrite drop_app_length.
Qed.

Lemma model_path_portable_witness :
  get_final_model_path
    (sep_join (([""; "d"] ++ "multi_train" :: ["A"; "baselines"; "t"])
               ++ "rl" :: ["tb"; "ev.tfevents"]))
  = ok (sep_join ("multi_train" :: ["A"; "baselines"; "t"] ++ ["final_model"])).
Proof.
  apply model_path_portable.
  - split; [by left | by repeat constructor].
  - by repeat constructor.
  - by_decide.
  - by_decide.
Defined.


(** X7: an event log whose path has no component [rl] makes
    [get_final_model_path] raise [ValueError]. *)
Theorem model_path_missing_anchor event_path :
  "rl" ∉ split event_path ->
  get_final_model_path event_path = raise ValueError.
Proof.
  intros Hnot. unfold get_final_model_path. by rewrite strip_missing.
Qed.

Lemma model_path_missing_anchor_witness :
  get_final_model_path "/d/baselines/t/ev.tfevents" = raise ValueError.
Proof. apply model_path_missing_anchor. by_decide. Defined.



(** ** The paths that discovery yields *)

Lemma plain_tree_Dir dirs files :
  plain_tree (Dir dirs files) <->
  Forall (fun name => plain name = true) files /\
  Forall (fun d => plain d.1 = true /\ plain_tree d.2) dirs.
Proof.
  simpl. apply and_iff_compat_l.
  induction dirs as [|d dirs IH]; simpl.
  - split; [by constructor | done].
  - rewrite Forall_cons, IH. tauto.
Qed.

Lemma has_file_plain t ds name :
  plain_tree t -> has_file t ds name ->
  Forall (fun s => plain s = true) ds /\ plain name = true.
Proof.
  induction ds as [|n ds IH] in t |- *; destruct t as [dirs files];
    rewrite plain_tree_Dir; intros [Hfiles Hdirs].
  - rewrite has_file_here. intros Hin. split; [constructor|].
    by rewrite Forall_forall in Hfiles; apply Hfiles.
  - rewrite has_file_sub. intros (sub & Hsub & Hf).
    rewrite Forall_forall in Hdirs. destruct (Hdirs _ Hsub) as [Hn Ht].
    destruct (IH _ Ht Hf) as [Hds Hname]. split; [by constructor | done].
Qed.

Lemma last2_inv (l : list string) a b :
  last2 l = [a; b] -> exists pre, l = pre ++ [a; b].
Proof.
  unfold last2. intros E. exists (firstn (length l - 2) l).
  by rewrite <- E, firstn_skipn.
Qed.

Lemma rooted_app pre l :
  rooted pre -> Forall (fun s => plain s = true) l -> rooted (pre ++ l).
Proof.
  destruct pre as [|h t]; [done|]. intros [Hh Ht] Hl. split; [done|].
  by apply Forall_app.
Qed.

Lemma rooted_app_inv pre l : rooted (pre ++ l) -> pre = [] \/ rooted pre.
Proof.
  destruct pre as [|h t]; [by left|]. intros [Hh Ht]. right. split; [done|].
  by apply Forall_app in Ht as [? _].
Qed.

Lemma split_empty s : split s = [""] -> s = "".
Proof. intros E. by rewrite <- (sep_join_split s), E. Qed.

(** The name of an event log is none of the anchors. *)
Lemma tfevents_name name d :
  contains "tfevents" name = true -> contains "tfevents" d = false -> name ≠ d.
Proof. intros Hc Hd ->. congruence. Qed.

Lemma event_files_components top t p :
  plain_tree t -> rooted (split top) -> top ≠ "" ->
  p ∈ event_files top t ->
  exists pre name,
    p = sep_join (pre ++ ["rl"; "tb"; name]) /\
    split p = pre ++ ["rl"; "tb"; name] /\
    plain name = true /\ contains "tfevents" name = true /\
    (pre = [] \/ rooted pre).
Proof.
  intros Ht Htop Hne (ds & name & Hf & _ & Hsuf & Hc & ->)%elem_of_event_files.
  destruct (has_file_plain _ _ _ Ht Hf) as [Hds Hname].
  assert (Hroot : rooted (split top ++ ds)) by by apply rooted_app.
  assert (Hne' : split top ++ ds ≠ [""]).
  { intros E. destruct ds as [|n ds].
    - rewrite app_nil_r in E. by apply split_empty in E.
    - pose proof (split_nonempty top). apply (f_equal length) in E.
      rewrite length_app in E. destruct (split top); simpl in *; [done | lia]. }
  assert (Hjoin : os_path_join top ds = sep_join (split top ++ ds)).
  { rewrite <- (sep_join_split top) at 1.
    apply os_path_join_rooted; [done| |done].
    intros E. by apply split_empty in E. }
  rewrite Hjoin in *.
  rewrite split_sep_join in Hsuf;
    [|by destruct (split top) | by apply rooted_sep_free].
  destruct (last2_inv _ _ _ Hsuf) as [pre Hpre]. rewrite Hpre in *.
  destruct (sep_join_rooted _ Hroot Hne') as [Hn He].
  assert (Hp : join2 (sep_join (pre ++ ["rl"; "tb"])) name
               = sep_join (pre ++ ["rl"; "tb"; name])).
  { rewrite join2_plain' by done. rewrite <- sep_join_snoc by by destruct pre.
    by rewrite <- app_assoc. }
  exists pre, name. rewrite Hp. split; [done|]. split.
  - apply split_sep_join; [by destruct pre|].
    replace (pre ++ ["rl"; "tb"; name]) with ((pre ++ ["rl"; "tb"]) ++ [name])
      by by rewrite <- app_assoc.
    apply Forall_app. split; [by apply rooted_sep_free|].
    constructor; [by apply plain_sep_free | constructor].
  - split; [done|]. split; [done|]. by eapply rooted_app_inv.
Qed.

(** X8: under a log directory given without trailing or doubled separator,
    in a tree of plain names, every path [event_files] yields has [rl],
    [tb] and the name of the file, which contains [tfevents], as its last
    three components. *)
Theorem discovered_paths_shape top t p :
  plain_tree t -> rooted (split top) -> top ≠ "" ->
  p ∈ event_files top t ->
  exists pre name,
    p = sep_join (pre ++ ["rl"; "tb"; name]) /\
    split p = pre ++ ["rl"; "tb"; name] /\
    plain name = true /\ contains "tfevents" name = true /\
    (pre = [] \/ rooted pre).
Proof. apply event_files_components. Qed.

Ltac plain_tree_closed :=
  cbn; repeat match goal with
              | |- _ /\ _ => split
              | |- Forall _ _ => constructor
              | |- True => exact I
              | |- _ = true => reflexivity
              end.

Lemma discovered_paths_shape_witness :
  exists pre name,
    Corpus.log_of "A" = sep_join (pre ++ ["rl"; "tb"; name]) /\
    split (Corpus.log_of "A") = pre ++ ["rl"; "tb"; name] /\
    plain name = true /\ contains "tfevents" name = true /\
    (pre = [] \/ rooted pre).
Proof.
  apply (discovered_paths_shape "/d/multi_train" (Dir [Corpus.run "A"] [])).
  - plain_tree_closed.
  - cbv [split sep Ascii.eqb Bool.eqb]. split; [by left | by repeat constructor].
  - discriminate.
  - by_decide.
Defined.

Section Composition.

Context `{Numpy}.
Variable w : World.

(** X9: the loop body cannot fail on the model path of a discovered log:
    under the same conditions, once the statistics and the configuration of
    a log that [event_files] yields have been read, the update of the
    records goes through, whatever the records are. *)
Theorem discovered_fold_total top t p W st k r :
  plain_tree t -> rooted (split top) -> top ≠ "" ->
  p ∈ event_files top t ->
  observe w W p = ok (k, r) ->
  exists st', fold_log w W st p = ok st'.
Proof.
  intros Ht Htop Hne Hin Hobs.
  destruct (event_files_components _ _ _ Ht Htop Hne Hin)
    as (pre & name & Hp & Hsplit & Hname & Hc & Hpre).
  destruct (observe_key _ _ _ _ _ Hobs) as (config & z & Hcfg & _ & _).
  assert (Hbase : "baselines" ∈ split p).
  { destruct (decide ("baselines" ∈ split p)) as [|Hnot]; [done|].
    unfold get_sacred_config in Hcfg. by rewrite strip_missing in Hcfg. }
  rewrite Hsplit in Hbase.
  assert (Hin_pre : "baselines" ∈ pre).
  { apply elem_of_app in Hbase as [?|Hb]; [done|].
    repeat (apply elem_of_cons in Hb as [Hb|Hb]; try done).
    - exfalso. by eapply (tfevents_name name "baselines").
    - by apply elem_of_nil in Hb. }
  assert (Hroot : rooted pre).
  { destruct Hpre as [->|?]; [by apply elem_of_nil in Hin_pre | done]. }
  assert (Hne' : pre ≠ [""]).
  { intros ->. apply list_elem_of_singleton in Hin_pre. done. }
  assert (Hm : exists m, get_final_model_path p = ok m).
  { rewrite Hp. eexists. apply model_path_components; [done..| |].
    - repeat constructor. by apply plain_sep_free.
    - intros Hb. repeat (apply elem_of_cons in Hb as [Hb|Hb]; try done).
      + by eapply (tfevents_name name "rl").
      + by apply elem_of_nil in Hb. }
  destruct Hm as [m Hm]. unfold fold_log. rewrite Hobs. bind_ok. simpl.
  rewrite (update_total _ _ _ _ _ Hm). by eexists.
Qed.

End Composition.

Lemma discovered_fold_total_witness :
  exists st',
    fold_log (Corpus.world Corpus.config ["A"]) 100 empty_best
             (Corpus.log_of "A") = ok st'.
Proof.
  apply (discovered_fold_total (Corpus.world Corpus.config ["A"])
           "/d/multi_train" (Dir [Corpus.run "A"] []) (Corpus.log_of "A")
           100 empty_best Corpus.K Corpus.rate_A).
  - plain_tree_closed.
  - cbv [split sep Ascii.eqb Bool.eqb]. split; [by left | by repeat constructor].
  - discriminate.
  - by_decide.
  - vm_compute. reflexivity.
Defined.



(** ** What the aggregation keeps *)

Section FloatTotal.

Local Open Scope float_scope.

Lemma SF_positive_eq x y :
  SFltb (S754_zero false) x = true -> SFltb (S754_zero false) y = true ->
  SFltb x y = false -> SFltb y x = false -> x = y.
Proof.
  unfold SFltb, SFcompare.
  destruct x as [[]|[]| |[] m1 e1], y as [[]|[]| |[] m2 e2];
    try discriminate; try reflexivity.
  cmp_cases; intros; subst; try discriminate; try reflexivity; lia.
Qed.

(** Above zero the order of floats is total. *)
Lemma ltb_positive_eq x y :
  (0 <? x) = true -> (0 <? y) = true ->
  (x <? y) = false -> (y <? x) = false -> x = y.
Proof.
  rewrite !FloatAxioms.ltb_spec.
  change (Prim2SF 0) with (S754_zero false).
  intros Hx Hy Hxy Hyx.
  rewrite <- (FloatAxioms.SF2Prim_Prim2SF x), <- (FloatAxioms.SF2Prim_Prim2SF y).
  f_equal. by apply SF_positive_eq.
Qed.

Lemma ltb_not_nan x y : (x <? y) = true -> PrimFloat.is_nan y = false.
Proof.
  intros Hlt. destruct (PrimFloat.is_nan y) eqn:E; [|done].
  by rewrite (ltb_nan_r x y E) in Hlt.
Qed.

End FloatTotal.

Section Aggregate.

Local Open Scope float_scope.
Context `{Numpy}.
Variable w : World.
Variable W : Z.

Lemma fold_log_inv st p st' :
  fold_log w W st p = ok st' ->
  exists k r, observe w W p = ok (k, r) /\ update p k r st = ok st'.
Proof.
  unfold fold_log. destruct (observe w W p) as [e|[k r]]; [done|].
  intros Hup. by exists k, r.
Qed.

Lemma fold_logs_cons p paths st st' :
  fold_logs w W (p :: paths) st = ok st' ->
  exists st1, fold_log w W st p = ok st1 /\ fold_logs w W paths st1 = ok st'.
Proof.
  unfold fold_logs.
  change (fold_result (fold_log w W) (p :: paths) st)
    with (fold_log w W st p ≫= fold_result (fold_log w W) paths).
  destruct (fold_log w W st p) as [e|st1]; [done|]. intros Hrest.
  by exists st1.
Qed.

Lemma stored_rate_sound st k :
  sound st -> best_policy st !! k = None -> stored_rate st k = 0.
Proof.
  intros Hs Hp. specialize (Hs k). rewrite Hp in Hs. unfold stored_rate.
  destruct (best_winrate st !! k) as [v|]; [by apply Hs | done].
Qed.

Lemma stored_rate_sound_pos st k m :
  sound st -> best_policy st !! k = Some m -> (0 <? stored_rate st k) = true.
Proof.
  intros Hs Hp. specialize (Hs k). rewrite Hp in Hs.
  destruct Hs as (v & Hv & Hpos). unfold stored_rate. by rewrite Hv.
Qed.

Lemma update_sound p key r st st' :
  sound st -> update p key r st = ok st' -> sound st'.
Proof.
  intros Hs Hup k.
  destruct (update_inv _ _ _ _ _ Hup) as [[_ ->]|[Hlt (m & _ & ->)]]; simpl.
  - rewrite lookup_touch. specialize (Hs k). case_decide as Hk; [subst k|done].
    destruct (best_policy st !! key).
    + destruct Hs as (v & -> & Hv). by exists v.
    + intros v [= <-]. destruct (best_winrate st !! key); [by apply Hs | done].
  - destruct (decide (key = k)) as [<-|Hne].
    + rewrite !lookup_insert_eq. exists r. split; [done|].
      destruct (best_policy st !! key) as [m0|] eqn:Hp.
      * eapply ltb_trans; [by eapply stored_rate_sound_pos | done].
      * by rewrite (stored_rate_sound _ _ Hs Hp) in Hlt.
    + rewrite !lookup_insert_ne, lookup_touch by done.
      rewrite decide_False by done. apply Hs.
Qed.

Lemma fold_logs_sound paths st st' :
  sound st -> fold_logs w W paths st = ok st' -> sound st'.
Proof.
  induction paths as [|p paths IH] in st |- *.
  - by intros Hs [= <-].
  - intros Hs (st1 & (k & r & _ & Hup)%fold_log_inv & Hrest)%fold_logs_cons.
    eapply IH; [|exact Hrest]. by eapply update_sound.
Qed.

Lemma sound_empty : sound empty_best.
Proof. intros k. simpl. rewrite lookup_empty. by intros v; rewrite lookup_empty. Qed.

Lemma fold_logs_upper paths st st' p k r :
  fold_logs w W paths st = ok st' -> p ∈ paths ->
  observe w W p = ok (k, r) ->
  (stored_rate st' k <? r) = false.
Proof.
  induction paths as [|q paths IH] in st |- *; [by intros _ ?%elem_of_nil|].
  intros (st1 & Hq & Hrest)%fold_logs_cons [->|Hin]%elem_of_cons Hobs.
  - apply fold_log_inv in Hq as (k' & r' & Hobs' & Hup).
    rewrite Hobs in Hobs'. injection Hobs' as <- <-.
    assert (H1 : (stored_rate st1 k <? r) = false).
    { destruct (update_inv _ _ _ _ _ Hup) as [[Hle ->]|[Hlt (m & _ & ->)]].
      - by rewrite stored_rate_touch.
      - rewrite stored_rate_insert, decide_True by done. apply ltb_irrefl. }
    destruct (fold_logs_rate w W _ _ _ k Hrest) as [->|Hlt]; [done|].
    destruct (stored_rate st' k <? r) eqn:E; [|done].
    by rewrite (ltb_trans _ _ _ Hlt E) in H1.
  - by eapply IH.
Qed.

Lemma update_attained seen p key r st st' :
  attained w W seen st -> observe w W p = ok (key, r) ->
  update p key r st = ok st' -> attained w W (seen ++ [p]) st'.
Proof.
  intros Ha Hobs Hup k m.
  destruct (update_inv _ _ _ _ _ Hup) as [[_ ->]|[Hlt (m' & Hm' & ->)]]; simpl.
  - intros (q & r' & Hq & Hoq & Hmq & Hr)%Ha.
    exists q, r'. rewrite elem_of_app, lookup_touch. split; [by left|].
    split; [done|]. split; [done|].
    case_decide; [subst; by rewrite Hr | done].
  - destruct (decide (key = k)) as [<-|Hne].
    + rewrite !lookup_insert_eq. intros [= <-]. exists p, r.
      rewrite elem_of_app, list_elem_of_singleton. by auto.
    + rewrite !lookup_insert_ne, lookup_touch, decide_False by done.
      intros (q & r' & Hq & Hoq & Hmq & Hr)%Ha.
      exists q, r'. rewrite elem_of_app. by auto.
Qed.

Lemma fold_logs_attained seen paths st st' :
  attained w W seen st -> fold_logs w W paths st = ok st' ->
  attained w W (seen ++ paths) st'.
Proof.
  induction paths as [|p paths IH] in seen, st |- *.
  - intros Ha [= <-]. by rewrite app_nil_r.
  - intros Ha (st1 & (k & r & Hobs & Hup)%fold_log_inv & Hrest)%fold_logs_cons.
    replace (seen ++ p :: paths) with ((seen ++ [p]) ++ paths)
      by by rewrite <- app_assoc.
    eapply IH; [|exact Hrest]. by eapply update_attained.
Qed.

Lemma update_keyed seen p key r st st' :
  keyed w W seen st -> observe w W p = ok (key, r) ->
  update p key r st = ok st' -> keyed w W (seen ++ [p]) st'.
Proof.
  intros Hk Hobs Hup k.
  assert (Hdom : is_Some (best_winrate st' !! k) <->
                 k = key \/ is_Some (best_winrate st !! k)).
  { destruct (update_inv _ _ _ _ _ Hup) as [[_ ->]|[_ (m' & _ & ->)]]; simpl.
    - rewrite lookup_touch. case_decide as Hkey.
      + subst k. split; [by left | by eexists].
      + split; [by right | by intros [->|?]].
    - destruct (decide (key = k)) as [<-|Hne].
      + rewrite lookup_insert_eq. split; [by left | by eexists].
      + rewrite lookup_insert_ne, lookup_touch, decide_False by done.
        split; [by right | by intros [->|?]]. }
  rewrite Hdom, (Hk k). split.
  - intros [->|(q & r' & Hq & Hoq)].
    + exists p, r. rewrite elem_of_app, list_elem_of_singleton. by auto.
    + exists q, r'. rewrite elem_of_app. by auto.
  - intros (q & r' & [Hq| ->%list_elem_of_singleton]%elem_of_app & Hoq).
    + right. by exists q, r'.
    + left. rewrite Hobs in Hoq. by injection Hoq as -> _.
Qed.

Lemma fold_logs_keyed seen paths st st' :
  keyed w W seen st -> fold_logs w W paths st = ok st' ->
  keyed w W (seen ++ paths) st'.
Proof.
  induction paths as [|p paths IH] in seen, st |- *.
  - intros Ha [= <-]. by rewrite app_nil_r.
  - intros Ha (st1 & (k & r & Hobs & Hup)%fold_log_inv & Hrest)%fold_logs_cons.
    replace (seen ++ p :: paths) with ((seen ++ [p]) ++ paths)
      by by rewrite <- app_assoc.
    eapply IH; [|exact Hrest]. by eapply update_keyed.
Qed.

Lemma attained_empty : attained w W [] empty_best.
Proof. intros k m. simpl. by rewrite lookup_empty. Qed.

Lemma keyed_empty : keyed w W [] empty_best.
Proof.
  intros k. simpl. rewrite lookup_empty. split; [by intros [? ?]|].
  by intros (p & r & ?%elem_of_nil & _).
Qed.

End Aggregate.

Section AggregateResults.

Local Open Scope float_scope.
Context `{Numpy}.
Variable w : World.

(** X13: a log whose win rate is NaN is folded without error.  The best
    policies stay as they are, and so does every win rate already stored;
    the one change is that the key of the log, if [best_winrate] does not
    have it yet, is entered with 0.0 by the read of line 106.  No other key
    is added or removed. *)
Theorem nan_never_selected W st p k r :
  observe w W p = ok (k, r) -> PrimFloat.is_nan r = true ->
  exists st',
    fold_log w W st p = ok st' /\
    best_policy st' = best_policy st /\
    (forall key v, best_winrate st !! key = Some v ->
                   best_winrate st' !! key = Some v) /\
    (forall key, key ≠ k ->
                 best_winrate st' !! key = best_winrate st !! key) /\
    (best_winrate st !! k = None -> best_winrate st' !! k = Some 0) /\
    (is_Some (best_winrate st !! k) -> best_winrate st' = best_winrate st) /\
    forall key, stored_rate st' key = stored_rate st key.
Proof.
  intros Hobs Hnan. unfold fold_log. rewrite Hobs. bind_ok. simpl.
  rewrite (update_nan _ _ _ _ Hnan). eexists. split; [done|].
  split; [done|]. simpl. repeat split.
  - intros key v Hv. rewrite lookup_touch. case_decide; [|done].
    subst key. by rewrite Hv.
  - intros key Hne. rewrite lookup_touch. by case_decide.
  - intros Hk. rewrite lookup_touch. case_decide; [|done]. by rewrite Hk.
  - intros [v Hv]. unfold touch. by rewrite Hv.
  - intros key. apply stored_rate_touch.
Qed.

(** X14: in the document [find_best] returns, a key with a policy has a win
    rate strictly above zero, a key without a policy has the win rate 0.0,
    and no win rate is NaN. *)
Theorem document_sound logdirs W doc k :
  find_best w logdirs W = ok doc ->
  (forall m, leaf (policies doc) k = Some m ->
             exists v, leaf (winrates doc) k = Some v /\ (0 <? v) = true) /\
  (leaf (policies doc) k = None ->
   forall v, leaf (winrates doc) k = Some v -> v = 0) /\
  (forall v, leaf (winrates doc) k = Some v -> PrimFloat.is_nan v = false).
Proof.
  intros (st & Hfold & Hleaf)%find_best_leaves.
  destruct (Hleaf k) as [-> ->].
  pose proof (fold_logs_sound w W _ _ _ sound_empty Hfold k) as Hs.
  destruct (best_policy st !! k) as [m|].
  - destruct Hs as (v & Hv & Hpos). split; [by intros _ _; exists v|].
    split; [done|]. intros v' Hv'. rewrite Hv in Hv'. injection Hv' as <-.
    by eapply ltb_not_nan.
  - split; [done|]. split; [by intros _|].
    intros v ->%Hs. reflexivity.
Qed.

(** X15: the win rate reported for a key is not below the win rate of any
    discovered log with that key. *)
Theorem reported_rate_is_upper_bound logdirs W doc p k r :
  find_best w logdirs W = ok doc ->
  p ∈ discover w logdirs -> observe w W p = ok (k, r) ->
  exists v, leaf (winrates doc) k = Some v /\ (v <? r) = false.
Proof.
  intros (st & Hfold & Hleaf)%find_best_leaves Hin Hobs.
  destruct (Hleaf k) as [_ ->].
  pose proof (fold_logs_upper w W _ _ _ _ _ _ Hfold Hin Hobs) as Hup.
  pose proof (fold_logs_keyed w W [] _ _ _ (keyed_empty w W) Hfold k) as Hk.
  destruct (proj2 Hk) as [v Hv]; [by exists p, r|].
  exists v. split; [done|]. unfold stored_rate in Hup. by rewrite Hv in Hup.
Qed.

(** X16: the policy reported for a key is the model path of a discovered
    log with that key whose win rate is the one reported. *)
Theorem reported_policy_attains logdirs W doc k m :
  find_best w logdirs W = ok doc ->
  leaf (policies doc) k = Some m ->
  exists p r,
    p ∈ discover w logdirs /\ observe w W p = ok (k, r) /\
    get_final_model_path p = ok m /\ leaf (winrates doc) k = Some r.
Proof.
  intros (st & Hfold & Hleaf)%find_best_leaves.
  destruct (Hleaf k) as [-> ->].
  apply (fold_logs_attained w W [] _ _ _ (attained_empty w W) Hfold).
Qed.

(** X17: [winrates] has a leaf for a key exactly when some discovered log
    has that key. *)
Theorem winrate_keys_are_observed logdirs W doc k :
  find_best w logdirs W = ok doc ->
  (is_Some (leaf (winrates doc) k) <->
   exists p r, p ∈ discover w logdirs /\ observe w W p = ok (k, r)).
Proof.
  intros (st & Hfold & Hleaf)%find_best_leaves.
  destruct (Hleaf k) as [_ ->].
  apply (fold_logs_keyed w W [] _ _ _ (keyed_empty w W) Hfold).
Qed.

Lemma rates_agree W paths paths' st1 st2 k :
  paths ≡ₚ paths' ->
  fold_logs w W paths empty_best = ok st1 ->
  fold_logs w W paths' empty_best = ok st2 ->
  is_Some (best_policy st1 !! k) ->
  is_Some (best_policy st2 !! k) /\ stored_rate st1 k = stored_rate st2 k.
Proof.
  intros Hperm H1 H2 [m1 Hm1].
  pose proof (fold_logs_sound w W _ _ _ sound_empty H1) as Hs1.
  pose proof (fold_logs_sound w W _ _ _ sound_empty H2) as Hs2.
  destruct (fold_logs_attained w W [] _ _ _ (attained_empty w W) H1 _ _ Hm1)
    as (p1 & r1 & Hp1 & Ho1 & _ & Hr1).
  simpl in Hp1.
  assert (Hu2 : (stored_rate st2 k <? stored_rate st1 k) = false).
  { unfold stored_rate at 2. rewrite Hr1. simpl.
    eapply fold_logs_upper; [exact H2| |exact Ho1]. by rewrite <- Hperm. }
  pose proof (stored_rate_sound_pos _ _ _ Hs1 Hm1) as Hpos1.
  destruct (best_policy st2 !! k) as [m2|] eqn:Hm2.
  - split; [done|].
    destruct (fold_logs_attained w W [] _ _ _ (attained_empty w W) H2 _ _ Hm2)
      as (p2 & r2 & Hp2 & Ho2 & _ & Hr2).
    simpl in Hp2.
    assert (Hu1 : (stored_rate st1 k <? stored_rate st2 k) = false).
    { unfold stored_rate at 2. rewrite Hr2. simpl.
      eapply fold_logs_upper; [exact H1| |exact Ho2]. by rewrite Hperm. }
    pose proof (stored_rate_sound_pos _ _ _ Hs2 Hm2) as Hpos2.
    by apply ltb_positive_eq.
  - rewrite (stored_rate_sound _ _ Hs2 Hm2) in Hu2. congruence.
Qed.

(** X18: folding the same logs in another order, from the empty start,
    gives the same win rates, hence the same [winrates] dictionary, and
    policies for the same keys; only which of several logs with the best
    win rate gives the policy can depend on the order. *)
Theorem winrates_order_independent W paths paths' st1 st2 :
  paths ≡ₚ paths' ->
  fold_logs w W paths empty_best = ok st1 ->
  fold_logs w W paths' empty_best = ok st2 ->
  best_winrate st1 = best_winrate st2 /\
  unstack (best_winrate st1) = unstack (best_winrate st2) /\
  forall k, is_Some (best_policy st1 !! k) <-> is_Some (best_policy st2 !! k).
Proof.
  intros Hperm H1 H2.
  assert (Hpol : forall k, is_Some (best_policy st1 !! k) <->
                           is_Some (best_policy st2 !! k)).
  { intros k. split; intros Hk.
    - by destruct (rates_agree W _ _ _ _ k Hperm H1 H2 Hk).
    - by destruct (rates_agree W _ _ _ _ k (symmetry Hperm) H2 H1 Hk). }
  assert (Heq : best_winrate st1 = best_winrate st2).
  { apply map_eq. intros k.
    pose proof (fold_logs_keyed w W [] _ _ _ (keyed_empty w W) H1 k) as Hk1.
    pose proof (fold_logs_keyed w W [] _ _ _ (keyed_empty w W) H2 k) as Hk2.
    simpl in Hk1, Hk2.
    assert (Hsome : is_Some (best_winrate st1 !! k) <->
                    is_Some (best_winrate st2 !! k)).
    { rewrite Hk1, Hk2. by setoid_rewrite Hperm. }
    pose proof (fold_logs_sound w W _ _ _ sound_empty H1 k) as Hs1.
    pose proof (fold_logs_sound w W _ _ _ sound_empty H2 k) as Hs2.
    destruct (best_policy st1 !! k) as [m1|] eqn:Hm1.
    - destruct (rates_agree W _ _ _ _ k Hperm H1 H2) as [[m2 Hm2] Hr];
        [by rewrite Hm1|].
      rewrite Hm2 in Hs2. destruct Hs1 as (v1 & Hv1 & _), Hs2 as (v2 & Hv2 & _).
      unfold stored_rate in Hr. rewrite Hv1, Hv2 in *. simpl in Hr. by subst.
    - destruct (best_policy st2 !! k) as [m2|] eqn:Hm2.
      { exfalso. destruct (proj2 (Hpol k)) as [? ?]; [by rewrite Hm2|].
        congruence. }
      destruct (best_winrate st1 !! k) as [v1|] eqn:Hv1,
               (best_winrate st2 !! k) as [v2|] eqn:Hv2.
      + by rewrite (Hs1 v1), (Hs2 v2).
      + by destruct (proj1 Hsome).
      + by destruct (proj2 Hsome).
      + done. }
  split; [done|]. split; [by rewrite Heq | done].
Qed.

End AggregateResults.

Lemma nan_never_selected_witness :
  exists st',
    fold_log (Corpus.world Corpus.config_slot1 []) 100 empty_best
             (Corpus.log_of "E") = ok st' /\
    best_policy st' = best_policy empty_best /\
    best_winrate st' !! ("Env1", 1%Z, "zoo/3") = Some 0%float /\
    forall key, key ≠ ("Env1", 1%Z, "zoo/3") ->
                best_winrate st' !! key = best_winrate empty_best !! key.
Proof.
  destruct (nan_never_selected (Corpus.world Corpus.config_slot1 []) 100
              empty_best (Corpus.log_of "E") ("Env1", 1%Z, "zoo/3") nan)
    as (st' & Hfold & Hpol & _ & Hother & Hnew & _).
  - vm_compute. reflexivity.
  - reflexivity.
  - exists st'. split; [exact Hfold|]. split; [exact Hpol|].
    split; [exact (Hnew (lookup_empty _)) | exact Hother].
Defined.

Lemma document_sound_witness :
  exists v,
    leaf [("Env1", [(0%Z, [("zoo/3", Corpus.rate_B)])])] Corpus.K = Some v /\
    (0 <? v)%float = true.
Proof.
  assert (Hdoc :
    find_best (Corpus.world Corpus.config ["A"; "B"]) ["/d/multi_train"] 100
    = ok {| policies :=
               [("Env1", [(0%Z, [("zoo/3", "multi_train/B/baselines/t/final_model")])])];
             winrates := [("Env1", [(0%Z, [("zoo/3", Corpus.rate_B)])])] |})
    by (vm_compute; reflexivity).
  apply (proj1 (document_sound _ _ _ _ Corpus.K Hdoc)
               "multi_train/B/baselines/t/final_model").
  reflexivity.
Defined.

Lemma reported_rate_is_upper_bound_witness :
  exists v,
    leaf [("Env1", [(0%Z, [("zoo/3", Corpus.rate_B)])])] Corpus.K = Some v /\
    (v <? Corpus.rate_A)%float = false.
Proof.
  assert (Hdoc :
    find_best (Corpus.world Corpus.config ["A"; "B"]) ["/d/multi_train"] 100
    = ok {| policies :=
               [("Env1", [(0%Z, [("zoo/3", "multi_train/B/baselines/t/final_model")])])];
             winrates := [("Env1", [(0%Z, [("zoo/3", Corpus.rate_B)])])] |})
    by (vm_compute; reflexivity).
  apply (reported_rate_is_upper_bound _ _ _ _ (Corpus.log_of "A") Corpus.K
           Corpus.rate_A Hdoc).
  - by_decide.
  - vm_compute. reflexivity.
Defined.

Lemma reported_policy_attains_witness :
  exists p r,
    p ∈ discover (Corpus.world Corpus.config ["A"; "B"]) ["/d/multi_train"] /\
    observe (Corpus.world Corpus.config ["A"; "B"]) 100 p = ok (Corpus.K, r) /\
    get_final_model_path p = ok "multi_train/B/baselines/t/final_model" /\
    leaf [("Env1", [(0%Z, [("zoo/3", Corpus.rate_B)])])] Corpus.K = Some r.
Proof.
  assert (Hdoc :
    find_best (Corpus.world Corpus.config ["A"; "B"]) ["/d/multi_train"] 100
    = ok {| policies :=
               [("Env1", [(0%Z, [("zoo/3", "multi_train/B/baselines/t/final_model")])])];
             winrates := [("Env1", [(0%Z, [("zoo/3", Corpus.rate_B)])])] |})
    by (vm_compute; reflexivity).
  apply (reported_policy_attains _ _ _ _ Corpus.K _ Hdoc).
  reflexivity.
Defined.

Lemma winrate_keys_are_observed_witness :
  is_Some (leaf [("Env1", [(0%Z, [("zoo/3", Corpus.rate_B)])])] Corpus.K) <->
  exists p r,
    p ∈ discover (Corpus.world Corpus.config ["A"; "B"]) ["/d/multi_train"] /\
    observe (Corpus.world Corpus.config ["A"; "B"]) 100 p = ok (Corpus.K, r).
Proof.
  assert (Hdoc :
    find_best (Corpus.world Corpus.config ["A"; "B"]) ["/d/multi_train"] 100
    = ok {| policies :=
               [("Env1", [(0%Z, [("zoo/3", "multi_train/B/baselines/t/final_model")])])];
             winrates := [("Env1", [(0%Z, [("zoo/3", Corpus.rate_B)])])] |})
    by (vm_compute; reflexivity).
  apply (winrate_keys_are_observed _ _ _ _ Corpus.K Hdoc).
Defined.

Lemma winrates_order_independent_witness :
  let w := Corpus.world Corpus.config [] in
  let mA := "multi_train/A/baselines/t/final_model" in
  let mB := "multi_train/B/baselines/t/final_model" in
  let st1 := updated (updated empty_best Corpus.K Corpus.rate_A mA)
                     Corpus.K Corpus.rate_B mB in
  let st2 := updated (updated empty_best Corpus.K Corpus.rate_B mB)
                     Corpus.K Corpus.rate_A mA in
  best_winrate st1 = best_winrate st2.
Proof.
  intros w mA mB st1 st2.
  apply (winrates_order_independent w 100
           [Corpus.log_of "A"; Corpus.log_of "B"]
           [Corpus.log_of "B"; Corpus.log_of "A"] st1 st2).
  - apply perm_swap.
  - apply fold_two; vm_compute; reflexivity.
  - apply fold_two; vm_compute; reflexivity.
Defined.



(** ** Model paths, statistics and the driver, in general *)

Lemma split_all_sep_free s : Forall (fun c => sep_free c = true) (split s).
Proof.
  induction s as [|c s IH]; simpl; [by repeat constructor|].
  destruct (Ascii.eqb c sep) eqn:Hc; [by constructor|].
  destruct (split s) as [|x xs].
  - constructor; [simpl; by rewrite Hc | constructor].
  - inversion IH; subst. constructor; [|done]. simpl. by rewrite Hc.
Qed.

Lemma list_index_Some x l i :
  list_index x l = Some i ->
  (i < length l)%nat /\ l !! i = Some x /\ x ∉ take i l.
Proof.
  induction l as [|y l IH] in i |- *; simpl; [done|].
  destruct (String.eqb_spec y x) as [->|Hne].
  - intros [= <-]. simpl. split; [lia|]. split; [done | apply not_elem_of_nil].
  - destruct (list_index x l) as [j|]; [|done]. simpl. intros [= <-].
    destruct (IH j eq_refl) as (Hlt & Hl & Hnot). simpl.
    split; [lia|]. split; [done|]. rewrite not_elem_of_cons. by split.
Qed.

(** A suffix of a string, as strings. *)
Lemma sep_join_drop (l : list string) i :
  (i < length l)%nat ->
  exists dropped, sep_join l = dropped +:+ sep_join (drop i l).
Proof.
  induction i as [|i IH] in l |- *; intros Hi.
  - by exists "".
  - destruct l as [|x [|y l]]; simpl in Hi; [lia|lia|].
    destruct (IH (y :: l)) as [d Hd]; [simpl; lia|].
    exists (x +:+ "/" +:+ d). rewrite sep_join_cons, Hd.
    change (drop (S i) (x :: y :: l)) with (drop i (y :: l)).
    by rewrite !append_assoc.
Qed.

(** X4: whatever the event log, once the directory above [rl] has been
    found: when no component of [root/final_model] is [multi_train], the
    model path is that path, unchanged; otherwise the components of that
    path are [before], without [multi_train], then the first [multi_train],
    then [rest], and the model path is [multi_train] and [rest] joined:
    the end of the path, from its first component [multi_train] on. *)
Theorem model_path_general event_path root :
  _strip_up_to event_path "rl" = ok root ->
  let abs_path := os_path_join root ["final_model"] in
  ("multi_train" ∉ split abs_path ->
   get_final_model_path event_path = ok abs_path) /\
  ("multi_train" ∈ split abs_path ->
   exists before rest,
     split abs_path = before ++ "multi_train" :: rest /\
     ("multi_train" ∉ before) /\
     get_final_model_path event_path
     = ok (sep_join ("multi_train" :: rest)) /\
     split (sep_join ("multi_train" :: rest)) = "multi_train" :: rest /\
     exists dropped,
       abs_path = dropped +:+ sep_join ("multi_train" :: rest)).
Proof.
  intros Hroot abs_path. unfold get_final_model_path. rewrite Hroot. bind_ok.
  fold abs_path. split.
  - intros Hnot. apply list_index_None in Hnot. rewrite Hnot.
    by rewrite sep_join_split.
  - intros Hin.
    destruct (list_index "multi_train" (split abs_path)) as [i|] eqn:Hi.
    2: { by apply list_index_None in Hi. }
    destruct (list_index_Some _ _ _ Hi) as (Hlt & Hl & Hnot).
    destruct (sep_join_drop (split abs_path) i Hlt) as [dropped Hd].
    rewrite sep_join_split in Hd.
    assert (Hdrop : drop i (split abs_path)
                    = "multi_train" :: drop (S i) (split abs_path)).
    { by rewrite (drop_S _ _ _ Hl). }
    change (skipn i (split abs_path)) with (drop i (split abs_path)).
    rewrite Hdrop in Hd |- *.
    exists (take i (split abs_path)), (drop (S i) (split abs_path)).
    split; [by rewrite <- Hdrop, take_drop|].
    split; [exact Hnot|]. split; [reflexivity|]. split.
    + apply split_sep_join; [done|].
      rewrite <- Hdrop. apply Forall_drop, split_all_sep_free.
    + by exists dropped.
Qed.

(** A path with two components [multi_train]: the model path starts at the
    first. *)
Lemma model_path_general_witness :
  exists before rest,
    split "/d/multi_train/x/multi_train/A/baselines/t/final_model"
    = before ++ "multi_train" :: rest /\
    ("multi_train" ∉ before) /\
    get_final_model_path
      "/d/multi_train/x/multi_train/A/baselines/t/rl/tb/events.tfevents.A"
    = ok (sep_join ("multi_train" :: rest)) /\
    split (sep_join ("multi_train" :: rest)) = "multi_train" :: rest /\
    exists dropped,
      "/d/multi_train/x/multi_train/A/baselines/t/final_model"
      = dropped +:+ sep_join ("multi_train" :: rest).
Proof.
  apply (proj2 (model_path_general
                  "/d/multi_train/x/multi_train/A/baselines/t/rl/tb/events.tfevents.A"
                  "/d/multi_train/x/multi_train/A/baselines/t" eq_refl)).
  by_decide.
Defined.


Section StatsAndDriver.

Context `{Numpy}.
Variable w : World.

(** X10: for a tracked metric with at least one recorded value, the mean
    reported under a window [W >= 1] is the mean of the last [min(N, W)]
    values; under a window [W <= 0] the slice [v[-W:]] starts from the
    front, so the mean is that of all values but the first [-W], all of them
    for [W = 0]. *)
Theorem window_mean event_path W t :
  let values := recorded (summary_iterator w event_path) t in
  tracked t = true -> values ≠ [] ->
  ((1 <= W)%Z ->
   get_stats w event_path W !! t
   = Some (np_mean (lastn (Nat.min (length values) (Z.to_nat W)) values))) /\
  ((W <= 0)%Z ->
   get_stats w event_path W !! t
   = Some (np_mean (drop (Z.to_nat (- W)) values))).
Proof.
  intros values Ht Hv. split; intros HW.
  - by apply get_stats_window.
  - rewrite get_stats_lookup. fold values. rewrite Ht.
    assert (Hs : slice_from (- W) values = drop (Z.to_nat (- W)) values).
    { unfold slice_from. destruct (Z.ltb_spec (- W) 0); [lia|].
      destruct (Z.le_ge_cases (- W) (Z.of_nat (length values))).
      - by rewrite Z.min_l.
      - rewrite Z.min_r, Nat2Z.id by done.
        change (@skipn) with (@drop).
        by rewrite drop_all, drop_ge by lia. }
    rewrite <- Hs. case_decide; [done|]. by destruct values.
Qed.

(** X11: the means depend only on the sequences of values recorded for
    the three tracked tags: step indices, the grouping of values into
    events and values of other tags have no influence. *)
Theorem stats_depend_on_recorded p1 p2 W :
  (forall t, tracked t = true ->
             recorded (summary_iterator w p1) t
             = recorded (summary_iterator w p2) t) ->
  get_stats w p1 W = get_stats w p2 W.
Proof.
  intros Hrec. apply map_eq. intros t. rewrite !get_stats_lookup.
  destruct (tracked t) eqn:Ht.
  - by rewrite (Hrec t Ht).
  - case_decide as Hk; [|done]. subst t. done.
Qed.

(** X12: [get_stats] never reports a mean for a tag other than the three
    tracked ones. *)
Theorem stats_keys_tracked event_path W t :
  is_Some (get_stats w event_path W !! t) -> tracked t = true.
Proof.
  rewrite get_stats_lookup. case_decide as Hk; [by subst t|].
  destruct (tracked t); [done|]. by intros [? ?].
Qed.

(** X21: however [main] ends, it has dumped a document exactly when it ends
    without error, the document is the result of [find_best] and goes to the
    chosen output path, and a scan is always preceded by the opening of that
    path for writing. *)
Theorem main_trace args tr res :
  main w args = (tr, res) ->
  (res = ok () <-> exists out doc, Dump out doc ∈ tr) /\
  (forall dirs, Scan dirs ∈ tr ->
     exists out pre post,
       writable w out = true /\ choose_output args = ok out /\
       tr = pre ++ OpenW out :: Scan dirs :: post) /\
  (forall out doc, Dump out doc ∈ tr ->
     choose_output args = ok out /\
     find_best w (logdir args) (episode_window args) = ok doc).
Proof.
  unfold main. destruct (choose_output args) as [e|out] eqn:Hout.
  { intros [= <- <-]. split; [|split].
    - split; [done|]. by intros (? & ? & ?%elem_of_nil).
    - by intros ? ?%elem_of_nil.
    - by intros ? ? ?%elem_of_nil. }
  assert (Hw : forall a, a ∈ warnings args -> exists d, a = Warn d).
  { intros a (d & <- & _)%list_elem_of_In%in_map_iff. by exists d. }
  destruct (writable w out) eqn:Hwr.
  - destruct (find_best w (logdir args) (episode_window args)) as [e|doc];
      intros [= <- <-]; (split; [|split]).
    + split; [done|]. intros (o & d & [Hin|Hin]%elem_of_app).
      * by destruct (Hw _ Hin).
      * repeat (apply elem_of_cons in Hin as [Hin|Hin]; try done).
        by apply elem_of_nil in Hin.
    + intros dirs [Hin|Hin]%elem_of_app; [by destruct (Hw _ Hin)|].
      repeat (apply elem_of_cons in Hin as [Hin|Hin]; try done).
      * injection Hin as ->. by exists out, (warnings args), [].
      * by apply elem_of_nil in Hin.
    + intros o d [Hin|Hin]%elem_of_app; [by destruct (Hw _ Hin)|].
      repeat (apply elem_of_cons in Hin as [Hin|Hin]; try done).
      by apply elem_of_nil in Hin.
    + split; [|done]. intros _. exists out, doc.
      rewrite elem_of_app. right. by repeat constructor.
    + intros dirs [Hin|Hin]%elem_of_app; [by destruct (Hw _ Hin)|].
      repeat (apply elem_of_cons in Hin as [Hin|Hin]; try done).
      * injection Hin as ->. by exists out, (warnings args), [Dump out doc].
      * by apply elem_of_nil in Hin.
    + intros o d [Hin|Hin]%elem_of_app; [by destruct (Hw _ Hin)|].
      repeat (apply elem_of_cons in Hin as [Hin|Hin]; try done).
      * by injection Hin as -> ->.
      * by apply elem_of_nil in Hin.
  - intros [= <- <-]. split; [|split].
    + split; [done|]. intros (o & d & Hin). by destruct (Hw _ Hin).
    + intros dirs Hin. by destruct (Hw _ Hin).
    + intros o d Hin. by destruct (Hw _ Hin).
Qed.

End StatsAndDriver.

Lemma window_mean_witness :
  get_stats (Corpus.world Corpus.config []) (Corpus.log_of "A") 100
    !! "game_win1"
  = Some (np_mean
            (lastn (Nat.min
                      (length (recorded (Corpus.events_of (Corpus.log_of "A"))
                                        "game_win1"))
                      (Z.to_nat 100))
                   (recorded (Corpus.events_of (Corpus.log_of "A"))
                             "game_win1"))).
Proof.
  refine (proj1 (window_mean (Corpus.world Corpus.config [])
                   (Corpus.log_of "A") 100 "game_win1" eq_refl _) _).
  - vm_compute. discriminate.
  - lia.
Defined.

(** Two logs that differ in their steps, in the grouping of the values
    into events and in the values of a tag that is not tracked. *)
Lemma stats_depend_on_recorded_witness :
  summary_iterator Corpus.regrouped_world (Corpus.log_of "A")
  ≠ summary_iterator Corpus.regrouped_world (Corpus.log_of "R") /\
  map step (summary_iterator Corpus.regrouped_world (Corpus.log_of "A"))
  = [0%Z; 1%Z; 2%Z] /\
  map step (summary_iterator Corpus.regrouped_world (Corpus.log_of "R"))
  = [10%Z; 7%Z; 20%Z] /\
  recorded (summary_iterator Corpus.regrouped_world (Corpus.log_of "R"))
           "reward" = [3.5%float; 0.25%float] /\
  get_stats Corpus.regrouped_world (Corpus.log_of "A") 100
  = get_stats Corpus.regrouped_world (Corpus.log_of "R") 100.
Proof.
  split; [by vm_compute|]. split; [reflexivity|]. split; [reflexivity|].
  split; [reflexivity|].
  apply stats_depend_on_recorded. intros t Ht.
  apply bool_decide_eq_true_1 in Ht.
  repeat (apply elem_of_cons in Ht as [->|Ht]; [vm_compute; reflexivity|]).
  by apply elem_of_nil in Ht.
Defined.

Lemma stats_keys_tracked_witness : tracked "game_win1" = true.
Proof.
  apply (stats_keys_tracked (Corpus.world Corpus.config [])
           (Corpus.log_of "A") 100).
  vm_compute. eexists. reflexivity.
Defined.

Lemma main_trace_witness :
  let run := main (Corpus.world Corpus.config ["A"])
                  {| logdir := ["/d/multi_train"]; episode_window := 100;
                     output_path := None |} in
  run.2 = ok () <-> exists out doc, Dump out doc ∈ run.1.
Proof.
  intros run.
  apply (main_trace (Corpus.world Corpus.config ["A"])
           {| logdir := ["/d/multi_train"]; episode_window := 100;
              output_path := None |} run.1 run.2).
  apply surjective_pairing.
Defined.


(** X19: [unstack] loses and adds nothing: the nested dictionary has a leaf
    at a key exactly when the flat one has an entry there, with the same
    value, and it is empty exactly when the flat one is. *)
Theorem unstack_round_trip {V} (d : gmap Key V) :
  (forall k v, leaf (unstack d) k = Some v <-> d !! k = Some v) /\
  (unstack d = [] <-> d = ∅).
Proof.
  split; [intros k v; by rewrite leaf_unstack|]. split.
  - intros Hnil. apply map_eq. intros k. rewrite <- leaf_unstack, Hnil.
    by rewrite lookup_empty.
  - intros ->. unfold unstack, sorted_items. by rewrite map_to_list_empty.
Qed.


(** ** The order of the document *)

Lemma od_upsert_absent {K A} `{EqDecision K} (k : K) (dflt : A) f
    (d : odict K A) :
  k ∉ d.*1 -> od_upsert k dflt f d = d ++ [(k, f dflt)].
Proof.
  induction d as [|[k0 a0] d IH]; simpl; [done|].
  intros [Hne Hnot]%not_elem_of_cons.
  rewrite decide_False by done. by rewrite IH.
Qed.

Lemma od_upsert_last {K A} `{EqDecision K} (k : K) (dflt : A) f
    (init : odict K A) a :
  k ∉ init.*1 ->
  od_upsert k dflt f (init ++ [(k, a)]) = init ++ [(k, f a)].
Proof.
  induction init as [|[k0 a0] d IH]; simpl.
  - intros _. by rewrite decide_True.
  - intros [Hne Hnot]%not_elem_of_cons.
    rewrite decide_False by done. by rewrite IH.
Qed.

Section OrderedUpsert.

Context {K A : Type} `{EqDecision K}.
Variable cmp : K -> K -> comparison.
Hypothesis cmp_eq : forall a b, cmp a b = Eq -> a = b.
Hypothesis cmp_antisym : forall a b, cmp b a = CompOpp (cmp a b).


Lemma klt_irrefl a : ~ klt cmp a a.
Proof.
  unfold klt. intros E. pose proof (cmp_antisym a a) as Ha.
  rewrite E in Ha. done.
Qed.

Lemma klt_kle_false a b : klt cmp a b -> kle cmp b a -> False.
Proof.
  unfold klt, kle. intros E Hle. apply Hle. by rewrite cmp_antisym, E.
Qed.

Lemma kle_neq_klt a b : kle cmp a b -> a ≠ b -> klt cmp a b.
Proof.
  unfold klt, kle. intros Hle Hne. destruct (cmp a b) eqn:E; try done.
  by apply cmp_eq in E.
Qed.

(** Under these an update lands on the last entry or on a new one after
    it. *)
Lemma upsert_shape k dflt f (d : odict K A) :
  increasing cmp d -> below cmp d k ->
  ((k ∉ d.*1) /\ od_upsert k dflt f d = d ++ [(k, f dflt)]) \/
  (exists init a,
      d = init ++ [(k, a)] /\ (k ∉ init.*1) /\
      od_upsert k dflt f d = init ++ [(k, f a)]).
Proof.
  unfold increasing, below.
  induction d as [|[k0 a0] d IH]; simpl.
  - intros _ _. left. split; [apply not_elem_of_nil | done].
  - intros Hinc Hbel. apply StronglySorted_inv in Hinc as [Hinc Hk0].
    apply Forall_cons in Hbel as [Hk0le Hbel].
    destruct (decide (k0 = k)) as [->|Hne].
    + right. exists [], a0. destruct d as [|[k1 a1] d].
      * split; [done|]. split; [apply not_elem_of_nil | done].
      * exfalso. apply Forall_cons in Hk0 as [Hlt _].
        apply Forall_cons in Hbel as [Hle _]. by eapply klt_kle_false.
    + destruct (IH Hinc Hbel) as [[Hnot ->]|(init & a & -> & Hnot & ->)].
      * left. split.
        -- rewrite not_elem_of_cons. split; [congruence | done].
        -- exact eq_refl.
      * right. exists ((k0, a0) :: init), a. split; [reflexivity|]. split; [|reflexivity].
        simpl. rewrite not_elem_of_cons. split; [congruence | done].
Qed.

Lemma increasing_snoc (d : odict K A) k a :
  increasing cmp d -> below cmp d k -> k ∉ d.*1 -> increasing cmp (d ++ [(k, a)]).
Proof.
  unfold increasing, below. intros Hinc Hbel Hnot.
  rewrite fmap_app.
  apply StronglySorted_app_2;
    try exact Hinc; try (simpl; by repeat constructor).
  intros x1 x2 Hx1 ->%list_elem_of_singleton.
  rewrite Forall_forall in Hbel. apply kle_neq_klt; [by apply Hbel|].
  by intros ->.
Qed.

Lemma increasing_last (init : odict K A) k a a' :
  increasing cmp (init ++ [(k, a)]) -> increasing cmp (init ++ [(k, a')]).
Proof. unfold increasing. by rewrite !fmap_app. Qed.

End OrderedUpsert.

(** *** The order of the keys *)

Lemma scmp_eq a b : String.compare a b = Eq -> a = b.
Proof. apply String.compare_eq_iff. Qed.

Lemma scmp_antisym a b : String.compare b a = CompOpp (String.compare a b).
Proof. apply String.compare_antisym. Qed.

Lemma zcmp_antisym a b : Z.compare b a = CompOpp (Z.compare a b).
Proof. apply Z.compare_antisym. Qed.

Lemma scmp_refl a : String.compare a a = Eq.
Proof.
  pose proof (scmp_antisym a a) as Ha. by destruct (String.compare a a).
Qed.

Lemma scmp_lt_trans a b c :
  String.compare a b = Lt -> String.compare b c = Lt ->
  String.compare a c = Lt.
Proof.
  intros Hab Hbc.
  assert (Hle : String.le a c).
  { transitivity b; unfold String.le, String.leb; [by rewrite Hab | by rewrite Hbc]. }
  unfold String.le, String.leb in Hle.
  destruct (String.compare a c) eqn:Hac; [|done|done].
  apply scmp_eq in Hac as ->. rewrite (scmp_antisym b c), Hbc in Hab. done.
Qed.


Lemma key_lt_iff e1 i1 p1 e2 i2 p2 :
  key_lt (e1, i1, p1) (e2, i2, p2) <->
  String.compare e1 e2 = Lt \/
  (e1 = e2 /\ ((i1 < i2)%Z \/ (i1 = i2 /\ String.compare p1 p2 = Lt))).
Proof.
  unfold key_lt, key_compare. simpl.
  destruct (String.compare e1 e2) eqn:He.
  - apply scmp_eq in He as ->.
    destruct (Z.compare_spec i1 i2) as [->|Hlt|Hgt].
    + split; [by auto|]. intros [?|[_ [?|[_ ?]]]]; [done|lia|done].
    + split; [by auto|done].
    + split; [done|]. intros [?|[_ [?|[? _]]]]; [done|lia|lia].
  - split; [by auto|done].
  - split; [done|]. intros [?|[-> _]]; [done|]. by rewrite scmp_refl in He.
Qed.

Lemma key_lt_trans a b c : key_lt a b -> key_lt b c -> key_lt a c.
Proof.
  destruct a as [[e1 i1] p1], b as [[e2 i2] p2], c as [[e3 i3] p3].
  rewrite !key_lt_iff.
  intros [H1|[-> [H1|[-> H1]]]] [H2|[-> [H2|[-> H2]]]];
    eauto using scmp_lt_trans.
  - right. split; [done|]. left. lia.
  - right. split; [done|]. right. eauto using scmp_lt_trans.
Qed.

Lemma key_compare_eq a b : key_compare a b = Eq -> a = b.
Proof.
  destruct a as [[e1 i1] p1], b as [[e2 i2] p2]. unfold key_compare. simpl.
  destruct (String.compare e1 e2) eqn:He; try done.
  destruct (Z.compare i1 i2) eqn:Hi; try done.
  intros Hp. apply scmp_eq in He, Hp. apply Z.compare_eq in Hi. by subst.
Qed.

(** *** Nested dictionaries in key order *)

Lemma elem_of_keys {K A} (d : odict K A) k :
  k ∈ d.*1 -> exists a, (k, a) ∈ d.
Proof.
  intros ([k' a] & -> & Hin)%list_elem_of_fmap. by exists a.
Qed.

Lemma unstack_item_shape {V} (doc : Nested V) (k : Key) v :
  sorted_doc doc -> dominated doc k ->
  ((k.1.1 ∉ doc.*1) /\
   unstack_item doc (k, v) = doc ++ [(k.1.1, [(k.1.2, [(k.2, v)])])]) \/
  (exists init by_i,
      doc = init ++ [(k.1.1, by_i)] /\ (k.1.1 ∉ init.*1) /\
      (((k.1.2 ∉ by_i.*1) /\
        unstack_item doc (k, v)
        = init ++ [(k.1.1, by_i ++ [(k.1.2, [(k.2, v)])])]) \/
       (exists init2 by_p,
           by_i = init2 ++ [(k.1.2, by_p)] /\ (k.1.2 ∉ init2.*1) /\
           (k.2 ∉ by_p.*1) /\
           unstack_item doc (k, v)
           = init ++ [(k.1.1, init2 ++ [(k.1.2, by_p ++ [(k.2, v)])])]))).
Proof.
  destruct k as [[e i] p]. simpl.
  intros [Hout Hmid] Hdom. unfold unstack_item.
  assert (Hbel : below String.compare doc e).
  { apply Forall_forall. intros e' [by_i Hin]%elem_of_keys.
    by destruct (Hdom _ _ Hin). }
  destruct (upsert_shape String.compare scmp_antisym e []
              (od_upsert i [] (od_set p v)) doc Hout Hbel)
    as [[Hnot ->]|(init & by_i & -> & Hnot & ->)].
  { left. by split. }
  right. exists init, by_i. split; [done|]. split; [done|].
  assert (Hin : (e, by_i) ∈ init ++ [(e, by_i)]).
  { rewrite elem_of_app, list_elem_of_singleton. by right. }
  destruct (Hdom _ _ Hin) as [_ Hdom2]. specialize (Hdom2 eq_refl).
  assert (Hbel2 : below Z.compare by_i i).
  { apply Forall_forall. intros i' [by_p Hin']%elem_of_keys.
    by destruct (Hdom2 _ _ Hin'). }
  destruct (upsert_shape Z.compare zcmp_antisym i [] (od_set p v) by_i
              (Hmid _ _ Hin) Hbel2)
    as [[Hnot2 ->]|(init2 & by_p & -> & Hnot2 & ->)].
  { left. by split. }
  right. exists init2, by_p. split; [done|]. split; [done|].
  assert (Hp : p ∉ by_p.*1).
  { intros [v' Hin']%elem_of_keys.
    assert (Hin2 : (i, by_p) ∈ init2 ++ [(i, by_p)]).
    { rewrite elem_of_app, list_elem_of_singleton. by right. }
    destruct (Hdom2 _ _ Hin2) as [_ Hdom3].
    by apply (klt_irrefl String.compare scmp_antisym p), (Hdom3 eq_refl p v'). }
  split; [done|]. unfold od_set. by rewrite od_upsert_absent.
Qed.

Lemma flatten_app {V} (d1 d2 : Nested V) :
  flatten (d1 ++ d2) = flatten d1 ++ flatten d2.
Proof. apply flat_map_app. Qed.

Lemma unstack_item_flatten {V} (doc : Nested V) k v :
  sorted_doc doc -> dominated doc k ->
  flatten (unstack_item doc (k, v)) = flatten doc ++ [(k, v)].
Proof.
  intros Hs Hd.
  destruct (unstack_item_shape doc k v Hs Hd)
    as [[_ E]|(init & by_i & Hdoc & _ &
               [[_ E]|(init2 & by_p & Hby & _ & _ & E)])];
    rewrite E; subst; destruct k as [[e i] p];
    rewrite !flatten_app; unfold flatten; simpl;
    do 3 (rewrite ?flat_map_app, ?map_app, ?app_nil_r, <- ?app_assoc; simpl);
    done.
Qed.

Lemma key_lt_components (k k' : Key) :
  key_lt k k' ->
  kle String.compare k.1.1 k'.1.1 /\
  (k.1.1 = k'.1.1 ->
   kle Z.compare k.1.2 k'.1.2 /\
   (k.1.2 = k'.1.2 -> klt String.compare k.2 k'.2)).
Proof.
  destruct k as [[e i] p], k' as [[e' i'] p']. rewrite key_lt_iff. simpl.
  unfold kle, klt. intros [He|[-> Hi]].
  - split; [by rewrite He|]. intros ->. by rewrite scmp_refl in He.
  - split; [by rewrite scmp_refl|]. intros _.
    destruct Hi as [Hi|[-> Hp]].
    + split; [|lia]. apply Z.compare_lt_iff in Hi. by rewrite Hi.
    + split; [by rewrite Z.compare_refl | done].
Qed.

Lemma dominated_below_outer {V} (doc : Nested V) k :
  dominated doc k -> below String.compare doc k.1.1.
Proof.
  intros Hdom. apply Forall_forall. intros e' [by_i Hin]%elem_of_keys.
  by destruct (Hdom _ _ Hin).
Qed.

Lemma dominated_below_mid {V} (doc : Nested V) k by_i :
  dominated doc k -> (k.1.1, by_i) ∈ doc -> below Z.compare by_i k.1.2.
Proof.
  intros Hdom Hin. destruct (Hdom _ _ Hin) as [_ Hdom2].
  apply Forall_forall. intros i' [by_p Hin']%elem_of_keys.
  by destruct (Hdom2 eq_refl _ _ Hin').
Qed.

Lemma elem_of_snoc {X} (l : list X) x y : y ∈ l ++ [x] <-> y ∈ l \/ y = x.
Proof. by rewrite elem_of_app, list_elem_of_singleton. Qed.

Lemma increasing_singleton {K A} (cmp : K -> K -> comparison) (k : K) (a : A) :
  increasing cmp [(k, a)].
Proof. unfold increasing. simpl. repeat constructor. Qed.

Lemma unstack_item_sorted {V} (doc : Nested V) k v :
  sorted_doc doc -> dominated doc k -> sorted_doc (unstack_item doc (k, v)).
Proof.
  intros Hs Hd. pose proof Hs as [Hout Hmid].
  pose proof (dominated_below_outer _ _ Hd) as Hbel.
  destruct (unstack_item_shape doc k v Hs Hd)
    as [[Hnot E]|(init & by_i & Hdoc & Hnot &
                  [[Hnot2 E]|(init2 & by_p & Hby & Hnot2 & _ & E)])];
    rewrite E; split.
  - by apply increasing_snoc; [apply scmp_eq|..].
  - intros e by_i [Hin|[= -> ->]]%elem_of_snoc; [by eapply Hmid|].
    apply increasing_singleton.
  - rewrite Hdoc in Hout. by eapply increasing_last.
  - assert (Hlast : (k.1.1, by_i) ∈ doc).
    { rewrite Hdoc, elem_of_snoc. by right. }
    intros e by_i' [Hin|[= -> ->]]%elem_of_snoc.
    + eapply Hmid. rewrite Hdoc, elem_of_snoc. by left.
    + apply increasing_snoc; [apply Z.compare_eq|by eapply Hmid| |done].
      by eapply dominated_below_mid.
  - rewrite Hdoc in Hout. by eapply increasing_last.
  - assert (Hlast : (k.1.1, by_i) ∈ doc).
    { rewrite Hdoc, elem_of_snoc. by right. }
    intros e by_i' [Hin|[= -> ->]]%elem_of_snoc.
    + eapply Hmid. rewrite Hdoc, elem_of_snoc. by left.
    + pose proof (Hmid _ _ Hlast) as Hinc. rewrite Hby in Hinc.
      by eapply increasing_last.
Qed.

Lemma unstack_item_dominated {V} (doc : Nested V) k v k' :
  sorted_doc doc -> dominated doc k -> dominated doc k' -> key_lt k k' ->
  dominated (unstack_item doc (k, v)) k'.
Proof.
  intros Hs Hd Hd' Hlt.
  destruct (key_lt_components _ _ Hlt) as [He Hi].
  assert (Hnew : forall i by_p,
             (i, by_p) ∈ [(k.1.2, [(k.2, v)])] -> k.1.1 = k'.1.1 ->
             kle Z.compare i k'.1.2 /\
             (i = k'.1.2 ->
              forall p v', (p, v') ∈ by_p -> klt String.compare p k'.2)).
  { intros i by_p [= -> ->]%list_elem_of_singleton Heq.
    destruct (Hi Heq) as [Hi1 Hp]. split; [done|].
    intros Hieq p v' [= -> ->]%list_elem_of_singleton. by apply Hp. }
  destruct (unstack_item_shape doc k v Hs Hd)
    as [[Hnot E]|(init & by_i & Hdoc & Hnot &
                  [[Hnot2 E]|(init2 & by_p & Hby & Hnot2 & _ & E)])];
    rewrite E; intros e by_i' [Hin|[= -> ->]]%elem_of_snoc.
  - by apply Hd'.
  - split; [done|]. intros Heq i by_p Hin. by apply Hnew.
  - apply Hd'. rewrite Hdoc, elem_of_snoc. by left.
  - assert (Hlast : (k.1.1, by_i) ∈ doc).
    { rewrite Hdoc, elem_of_snoc. by right. }
    split; [done|]. intros Heq i by_p [Hin|Hin]%elem_of_app.
    + destruct (Hd' _ _ Hlast) as [_ Hold]. by apply Hold.
    + by apply Hnew.
  - apply Hd'. rewrite Hdoc, elem_of_snoc. by left.
  - assert (Hlast : (k.1.1, by_i) ∈ doc).
    { rewrite Hdoc, elem_of_snoc. by right. }
    destruct (Hd' _ _ Hlast) as [_ Hold].
    split; [done|]. intros Heq i by_p' [Hin|[= -> ->]]%elem_of_snoc.
    + apply Hold; [done|]. rewrite Hby, elem_of_snoc. by left.
    + destruct (Hi Heq) as [Hi1 Hp]. split; [done|].
      intros Hieq p v' [Hin|[= -> ->]]%elem_of_snoc; [|by apply Hp].
      destruct (Hold Heq k.1.2 by_p) as [_ Hold2].
      { rewrite Hby, elem_of_snoc. by right. }
      by eapply Hold2.
Qed.

Lemma fold_unstack_flatten {V} (l : list (Key * V)) (doc : Nested V) :
  sorted_doc doc ->
  (forall x, x ∈ l -> dominated doc x.1) ->
  StronglySorted (fun x y => key_lt x.1 y.1) l ->
  flatten (fold_left unstack_item l doc) = flatten doc ++ l.
Proof.
  induction l as [|[k v] l IH] in doc |- *; intros Hs Hd Hl;
    cbn [fold_left].
  - by rewrite app_nil_r.
  - apply StronglySorted_inv in Hl as [Hl Hk].
    assert (Hdk : dominated doc k) by (apply (Hd (k, v)); by left).
    rewrite IH.
    + rewrite unstack_item_flatten by done. by rewrite <- app_assoc.
    + by apply unstack_item_sorted.
    + intros x Hx. apply unstack_item_dominated; [done..| |].
      * apply Hd. by right.
      * rewrite Forall_forall in Hk. by apply Hk.
    + exact Hl.
Qed.

#[global] Instance item_le_trans {V} : Transitive (@item_le V).
Proof.
  intros a b c. unfold item_le. intros Hab Hbc Hac.
  destruct (key_compare a.1 b.1) eqn:E1; [| |done];
    destruct (key_compare b.1 c.1) eqn:E2; try done.
  - apply key_compare_eq in E1, E2. rewrite E1, E2 in Hac.
    destruct c.1 as [[e i] p]. unfold key_compare in Hac. simpl in Hac.
    by rewrite !scmp_refl, Z.compare_refl in Hac.
  - apply key_compare_eq in E1. rewrite E1 in Hac. congruence.
  - apply key_compare_eq in E2. rewrite <- E2 in Hac. congruence.
  - pose proof (key_lt_trans _ _ _ E1 E2) as E3. unfold key_lt in E3. congruence.
Qed.

#[global] Instance item_le_total {V} : Total (@item_le V).
Proof.
  intros a b. unfold item_le, key_compare.
  rewrite (String.compare_antisym b.1.1.1 a.1.1.1),
    (Z.compare_antisym a.1.1.2 b.1.1.2),
    (String.compare_antisym b.1.2 a.1.2).
  destruct (String.compare a.1.1.1 b.1.1.1); simpl.
  all: try destruct (Z.compare a.1.1.2 b.1.1.2); simpl.
  all: try destruct (String.compare a.1.2 b.1.2); simpl.
  all: try (by left); try (by right).
Qed.

Lemma sorted_items_strict {V} (d : gmap Key V) :
  StronglySorted (fun x y => key_lt x.1 y.1) (sorted_items d).
Proof.
  assert (Hnd : NoDup (sorted_items d).*1).
  { unfold sorted_items. rewrite merge_sort_Permutation.
    apply NoDup_fst_map_to_list. }
  assert (Hs : StronglySorted item_le (sorted_items d)).
  { apply StronglySorted_merge_sort; apply _. }
  induction Hs as [|x l Hs IH Hx]; [constructor|].
  rewrite fmap_cons in Hnd. apply NoDup_cons in Hnd as [Hfresh Hnd].
  constructor; [by apply IH|].
  apply Forall_forall. intros y Hy. rewrite Forall_forall in Hx.
  specialize (Hx y Hy). unfold item_le in Hx. unfold key_lt.
  destruct (key_compare x.1 y.1) eqn:E; [|done|done].
  apply key_compare_eq in E. exfalso. apply Hfresh. rewrite E.
  by apply list_elem_of_fmap_2.
Qed.

Lemma flatten_unstack {V} (d : gmap Key V) :
  flatten (unstack d) = sorted_items d.
Proof.
  unfold unstack. rewrite fold_unstack_flatten; [done| | |].
  - split; [constructor | by intros ? ? ?%elem_of_nil].
  - by intros x _ ? ? ?%elem_of_nil.
  - apply sorted_items_strict.
Qed.

(** X20: read in the order in which it lists them, the nested dictionary
    that [unstack] builds holds the entries of the flat one in strictly
    increasing order of the keys: it is [sorted(d.items())], grouped. *)
Theorem unstack_in_key_order {V} (d : gmap Key V) :
  flatten (unstack d) = sorted_items d /\
  flatten (unstack d) ≡ₚ map_to_list d /\
  StronglySorted (fun x y => key_lt x.1 y.1) (flatten (unstack d)).
Proof.
  rewrite flatten_unstack. split; [done|]. split.
  - apply merge_sort_Permutation.
  - apply sorted_items_strict.
Qed.
